(** * STV tabulation and coalition manipulation search (src/main.py)

    A shallow embedding of the parser ([parse_ranking]), of the tabulator
    ([plurality_scores], [stv]) and of the manipulation search
    ([candidate_position], [prefers_over],
    [build_strategic_ballot_from_ranking], [apply_manipulation],
    [find_smallest_manipulating_coalition]).

    Modelling conventions.
    - Candidate identifiers and ballot weights are Python integers: [Z].
    - A ranking is a list of tie groups, a tie group a list of candidates, a
      ballot type a pair (weight, ranking), as the parser builds them.
    - The score table is a Python dict keyed by candidate: a [gmap].
    - The tabulator is embedded twice.
      Module [Binary64] follows the source on Python floats: a score is a
      binary64 value ([SpecFloat.spec_float] at precision 53 and largest
      exponent 1024), [weight / len(group_rem)] is the quotient of two
      integers rounded once and raises [OverflowError] beyond the largest
      float, [+=] rounds and can reach an infinity, [abs(s - m) < 1e-9]
      is false of an infinity or a NaN, and the order in which
      [set(candidates)] is enumerated is a parameter.  Termination, the
      number of rounds and the lists that [stv] returns are studied there.
      Module [Tabulator] takes scores as exact rationals ([Qc]) and
      enumerates [set(candidates)] in the order of the candidate list.  It
      serves for the score identities that hold in exact arithmetic, for
      worked elections with small integer weights and candidates 1, 2, 3,
      and as the tabulation that the manipulation search calls; what is
      proved of the search is conditional on what its calls of [stv]
      return.
    - The [remaining] set is represented by a duplicate-free list which fixes
      the order in which the set is enumerated; [set.remove] filters it.
    - The [while] loop of [stv] is run with fuel.  In [Tabulator], [None] of
      the outer option means that the fuel ran out, and the inner option of
      the winners is Python's [None] versus a list; in [Binary64] the
      outcome of a call is a value, an exception or [Unfinished].
    - Exceptions of [find_smallest_manipulating_coalition] are explicit in
      the [outcome] type. *)

From stdpp Require Import base numbers list gmap strings.
From Stdlib Require Import QArith Qcanon Qcabs Sorted Lqa Ascii.
From Stdlib Require SpecFloat.

Close Scope Qc_scope.
Close Scope Q_scope.
Local Open Scope Z_scope.

(** ** Tabulator *)

Module Tabulator.

(** [{c: 0.0 for c in remaining}] *)
Definition zero_scores (remaining : list Z) : gmap Z Qc :=
  foldl (λ scores c, <[c := 0%Qc]> scores) ∅ remaining.

(** [scores[c]]; the key is always present where the source reads it. *)
Definition score (scores : gmap Z Qc) (c : Z) : Qc :=
  default 0%Qc (scores !! c).

(** [[c for c in group if c in remaining]] *)
Definition group_rem (remaining : list Z) (group : list Z) : list Z :=
  filter (λ c, c ∈ remaining) group.

(** [weight / len(group_rem)] *)
Definition share (weight : Z) (members : list Z) : Qc :=
  (Qc_of_Z weight / Qc_of_Z (Z.of_nat (length members)))%Qc.

(** [for c in group_rem: scores[c] += share] *)
Definition add_share (sh : Qc) (members : list Z) (scores : gmap Z Qc)
  : gmap Z Qc :=
  foldl (λ sc c, alter (λ s, (s + sh)%Qc) c sc) scores members.

(** The body of [for weight, ranking in ballots]: walk the groups, credit
    the first one that still has a remaining candidate, then [break]. *)
Fixpoint credit_ballot (remaining : list Z) (weight : Z)
    (groups : list (list Z)) (scores : gmap Z Qc) : gmap Z Qc :=
  match groups with
  | [] => scores
  | group :: later =>
      match group_rem remaining group with
      | [] => credit_ballot remaining weight later scores
      | members => add_share (share weight members) members scores
      end
  end.

Definition plurality_scores (remaining : list Z) (ballots : list (Z * list (list Z)))
  : gmap Z Qc :=
  foldl (λ scores b, credit_ballot remaining b.1 b.2 scores)
        (zero_scores remaining) ballots.

(** [min(a, b)] of Python: the first argument unless the second is smaller. *)
Definition py_min (a b : Qc) : Qc := if decide (b < a)%Qc then b else a.

(** [min(scores[c] for c in remaining)]; the loop guard keeps [remaining]
    non-empty, so the [ValueError] of an empty [min] cannot arise. *)
Definition min_score (scores : gmap Z Qc) (remaining : list Z) : Qc :=
  match remaining with
  | [] => 0%Qc
  | c :: others => foldl (λ m c', py_min m (score scores c')) (score scores c) others
  end.

Definition tolerance : Qc := Q2Qc (1 # 1000000000).

(** [abs(scores[c] - min_score) < 1e-9] *)
Definition is_loser (scores : gmap Z Qc) (m : Qc) (c : Z) : Prop :=
  (Qcabs (score scores c - m) < tolerance)%Qc.

Global Instance is_loser_dec scores m c : Decision (is_loser scores m c).
Proof. unfold is_loser. apply _. Defined.

Record stv_state := StvState {
  remaining : list Z;
  elimination_order : list Z;
  last_losers : option (list Z)
}.

(** [remaining.remove(c); elimination_order.append(c)] *)
Definition eliminate (st : stv_state) (c : Z) : stv_state :=
  {| remaining := filter (λ x, x ≠ c) (remaining st);
     elimination_order := elimination_order st ++ [c];
     last_losers := last_losers st |}.

(** [[c for c in remaining if abs(scores[c] - min_score) < 1e-9]] *)
Definition round_losers (rem : list Z) (ballots : list (Z * list (list Z)))
  : list Z :=
  let scores := plurality_scores rem ballots in
  let m := min_score scores rem in
  filter (is_loser scores m) rem.

(** One pass through the body of [while remaining]. *)
Definition stv_round (ballots : list (Z * list (list Z))) (st : stv_state)
  : stv_state :=
  let losers := round_losers (remaining st) ballots in
  let st' := foldl eliminate st losers in
  {| remaining := remaining st';
     elimination_order := elimination_order st';
     last_losers := Some losers |}.

Fixpoint stv_loop (fuel : nat) (ballots : list (Z * list (list Z)))
    (st : stv_state) : option stv_state :=
  match remaining st with
  | [] => Some st
  | _ :: _ =>
      match fuel with
      | O => None
      | S fuel' => stv_loop fuel' ballots (stv_round ballots st)
      end
  end.

(** [remaining = set(candidates); elimination_order = []; last_losers = None] *)
Definition stv_init (candidates : list Z) : stv_state :=
  {| remaining := remove_dups candidates;
     elimination_order := [];
     last_losers := None |}.

(** [stv] with an explicit bound on the number of rounds. *)
Definition stv_fuel (fuel : nat) (candidates : list Z)
    (ballots : list (Z * list (list Z))) : option (option (list Z) * list Z) :=
  st ← stv_loop fuel ballots (stv_init candidates);
  Some (last_losers st, elimination_order st).

(** [stv(candidates, ballots)]: (winners, elimination_order), with one round
    per candidate as fuel. *)
Definition stv (candidates : list Z) (ballots : list (Z * list (list Z)))
  : option (option (list Z) * list Z) :=
  stv_fuel (length candidates) candidates ballots.



(** A ballot is non-exhausted when some tie group of its ranking contains a
    remaining candidate. *)
Definition non_exhausted (rem : list Z) (rk : list (list Z)) : Prop :=
  Exists (Exists (λ c, c ∈ rem)) rk.

Global Instance non_exhausted_dec rem rk : Decision (non_exhausted rem rk).
Proof. unfold non_exhausted. apply _. Defined.


(** The election of the end-to-end example. *)
Definition example_ballots : list (Z * list (list Z)) :=
  [(3, [[1]; [2]; [3]]); (2, [[2]; [1]; [3]]); (1, [[3]; [1]; [2]])].

(** The state after [n] passes through the loop body. *)
Definition after_rounds (n : nat) (ballots : list (Z * list (list Z)))
    (candidates : list Z) : stv_state :=
  Nat.iter n (stv_round ballots) (stv_init candidates).

(** The elimination order read as a sequence of removal groups: every item
    the loop appended counts as one group. *)
Definition order_entries (order : list Z) : list (list Z) :=
  (λ c, [c]) <$> order.

End Tabulator.

(** ** Manipulation search *)

Module Manipulation.
Import Tabulator.

(** Rank index of the first tie group that contains [cand], if any. *)
Fixpoint candidate_position (rk : list (list Z)) (cand : Z) : option nat :=
  match rk with
  | [] => None
  | group :: later =>
      if decide (cand ∈ group) then Some 0%nat
      else S <$> candidate_position later cand
  end.

Definition prefers_over (rk : list (list Z)) (cand1 cand2 : Z) : bool :=
  match candidate_position rk cand1, candidate_position rk cand2 with
  | None, None => false
  | None, Some _ => false
  | Some _, None => true
  | Some pos1, Some pos2 => bool_decide (pos1 < pos2)%nat
  end.

(** [if c not in flat: flat.append(c)] *)
Definition append_new (flat : list Z) (c : Z) : list Z :=
  if decide (c ∈ flat) then flat else flat ++ [c].

(** [flat.remove(x)] guarded by [x in flat]: the first occurrence goes. *)
Fixpoint remove_first (x : Z) (flat : list Z) : list Z :=
  match flat with
  | [] => []
  | y :: rest => if decide (y = x) then rest else y :: remove_first x rest
  end.

Definition build_strategic_ballot_from_ranking (rk : list (list Z))
    (target winner : Z) (all_candidates : list Z) : list (list Z) :=
  let flat := foldl (λ flat group, foldl append_new flat group) [] rk in
  let flat := foldl append_new flat all_candidates in
  let flat := target :: remove_first target flat in
  let flat := remove_first winner flat ++ [winner] in
  (λ c, [c]) <$> flat.

(** The [for idx, (w, r) in enumerate(ballots)] loop of [apply_manipulation],
    started at index [idx]. *)
Fixpoint withdraw (idx type_index : nat) (k : Z)
    (ballots : list (Z * list (list Z))) : list (Z * list (list Z)) :=
  match ballots with
  | [] => []
  | (w, r) :: later =>
      (if decide (idx = type_index)
       then (if decide (w - k > 0) then [(w - k, r)] else [])
       else [(w, r)])
      ++ withdraw (S idx) type_index k later
  end.

Definition apply_manipulation (ballots : list (Z * list (list Z)))
    (type_index : nat) (k : Z) (strategic_ballot : list (list Z))
  : list (Z * list (list Z)) :=
  withdraw 0 type_index k ballots ++ [(k, strategic_ballot)].

(** Size of the electorate: the sum of the weights of all ballot types. *)
Definition total_weight (ballots : list (Z * list (list Z))) : Z :=
  foldr (λ b acc, b.1 + acc) 0 ballots.

(** The strategic ranking in the words of the specification: flatten the
    groups in order, append the candidates the ranking leaves out in the
    order of the full candidate list, then put the target first and the
    incumbent last, the others keeping their relative order. *)
Definition spec_strategic_ranking (rk : list (list Z)) (target incumbent : Z)
    (full : list Z) : list (list Z) :=
  let flattened := concat rk in
  let completed := flattened ++ filter (λ c, c ∉ flattened) full in
  (λ c, [c]) <$>
    (target :: filter (λ c, c ≠ target ∧ c ≠ incumbent) completed ++ [incumbent]).

(** The result dictionary; while the search runs it holds the [best_*]
    variables (all [None] together: [option manipulation]). *)
Record manipulation := Manipulation {
  orig_winner : Z;
  coalition_size : Z;
  target : Z;
  type_index : nat;
  true_ranking : list (list Z);
  strategic_ballot : list (list Z);
  new_elim_order : list Z
}.

Inductive exn := TypeError.

(** What a call does: return a value, raise, or exhaust the fuel of [stv]. *)
Inductive outcome (A : Type) :=
  | Returned (a : A)
  | Raised (e : exn)
  | OutOfFuel.
Arguments Returned {A} a.
Arguments Raised {A} e.
Arguments OutOfFuel {A}.

Definition bind {A B} (o : outcome A) (f : A → outcome B) : outcome B :=
  match o with
  | Returned a => f a
  | Raised e => Raised e
  | OutOfFuel => OutOfFuel
  end.

Notation "x ←! o ; k" := (bind o (λ x, k))
  (at level 20, o at level 100, k at level 200, only parsing).

(** A call of [stv] whose winners are then passed to [len]. *)
Definition stv_winners (candidates : list Z) (ballots : list (Z * list (list Z)))
  : outcome (list Z * list Z) :=
  match stv candidates ballots with
  | None => OutOfFuel
  | Some (None, _) => Raised TypeError
  | Some (Some winners, order) => Returned (winners, order)
  end.

(** [range(lo, hi)] *)
Definition py_range (lo hi : Z) : list Z :=
  (λ i : nat, lo + Z.of_nat i) <$> seq 0 (Z.to_nat (hi - lo)).

(** [best_k is None or k < best_k] *)
Definition improves (k : Z) (best : option manipulation) : bool :=
  match best with
  | None => true
  | Some b => bool_decide (k < coalition_size b)
  end.

Section Search.
Variables (candidates : list Z) (ballots : list (Z * list (list Z))).
Variable (winner : Z).

(** [for k in range(1, weight + 1)], with its [break]. *)
Fixpoint try_sizes (tgt : Z) (idx : nat) (rk strategic : list (list Z))
    (sizes : list Z) (best : option manipulation)
  : outcome (option manipulation) :=
  match sizes with
  | [] => Returned best
  | k :: larger =>
      res ←! stv_winners candidates (apply_manipulation ballots idx k strategic);
      if bool_decide (res.1 = [tgt]) then
        Returned
          (if improves k best
           then Some {| orig_winner := winner; coalition_size := k;
                        target := tgt; type_index := idx;
                        true_ranking := rk; strategic_ballot := strategic;
                        new_elim_order := res.2 |}
           else best)
      else try_sizes tgt idx rk strategic larger best
  end.

(** [for type_index, (weight, ranking) in enumerate(ballots)], from [idx]. *)
Fixpoint scan_types (tgt : Z) (idx : nat) (types : list (Z * list (list Z)))
    (best : option manipulation) : outcome (option manipulation) :=
  match types with
  | [] => Returned best
  | (weight, rk) :: later =>
      if prefers_over rk tgt winner then
        best' ←! try_sizes tgt idx rk
                   (build_strategic_ballot_from_ranking rk tgt winner candidates)
                   (py_range 1 (weight + 1)) best;
        scan_types tgt (S idx) later best'
      else scan_types tgt (S idx) later best
  end.

(** [for target in candidates] *)
Fixpoint scan_targets (targets : list Z) (best : option manipulation)
  : outcome (option manipulation) :=
  match targets with
  | [] => Returned best
  | tgt :: later =>
      if decide (tgt = winner) then scan_targets later best
      else best' ←! scan_types tgt 0 ballots best;
           scan_targets later best'
  end.
End Search.

Definition find_smallest_manipulating_coalition (candidates : list Z)
    (ballots : list (Z * list (list Z))) : outcome (option manipulation) :=
  orig ←! stv_winners candidates ballots;
  match orig.1 with
  | [orig_winner] => scan_targets candidates ballots orig_winner candidates None
  | _ => Returned None
  end.

(** An election in which two voters of the third type can make candidate 2
    win instead of candidate 1. *)
Definition manipulable_ballots : list (Z * list (list Z)) :=
  [(5, [[1]]); (2, [[2]; [1]; [3]]); (5, [[3]; [2]; [1]])].

(** *** Predicates on the running best result *)

Section SearchInvariants.
Variables (candidates : list Z) (ballots : list (Z * list (list Z))).
Variable (winner : Z).

(** Moving [k] voters of type [idx] to the strategic ranking built from
    [rk] makes [tgt] the only winner, with elimination order [order]. *)
Definition wins_with (tgt : Z) (idx : nat) (rk : list (list Z)) (k : Z)
    (order : list Z) : Prop :=
  stv candidates
      (apply_manipulation ballots idx k
         (build_strategic_ballot_from_ranking rk tgt winner candidates))
  = Some (Some [tgt], order).

(** The recorded result describes a coalition that works. *)
Definition sound (best : option manipulation) : Prop :=
  ∀ b, best = Some b →
    orig_winner b = winner ∧
    target b ∈ candidates ∧
    target b ≠ winner ∧
    strategic_ballot b =
      build_strategic_ballot_from_ranking (true_ranking b) (target b)
        winner candidates ∧
    (∃ w, ballots !! type_index b = Some (w, true_ranking b) ∧
          1 ≤ coalition_size b ≤ w) ∧
    prefers_over (true_ranking b) (target b) winner = true ∧
    wins_with (target b) (type_index b) (true_ranking b) (coalition_size b)
              (new_elim_order b).

(** A result of size at most [k] is recorded. *)
Definition bounded (best : option manipulation) (k : Z) : Prop :=
  ∃ b, best = Some b ∧ coalition_size b ≤ k.
End SearchInvariants.

End Manipulation.

Import Tabulator Manipulation.

(** ** Further notions used to state facts about the code *)

(** Total weight of the ballot types whose ranking puts [c] alone in its
    first tie group. *)
Definition first_choice_weight (c : Z) (ballots : list (Z * list (list Z)))
  : Z :=
  foldr (λ b acc, if decide (head b.2 = Some [c]) then b.1 + acc else acc)
        0 ballots.

(** ** The preference-string parser ([parse_ranking])

    A Python string is taken as the list of its characters; the model covers
    characters with code points below 256 ([ascii]).  Among these
    [str.isspace] holds of 9..13, 28..32, 133 and 160, and [str.isdigit] of
    the decimal digits and of the superscripts 178, 179 and 185, which
    [int] refuses.  The index [i] of the source is kept as the part of the
    string from [i] on; [NoFuel] means that the bound on the passes through
    the outer loop was reached. *)

Module Parsing.

Definition code (c : ascii) : Z := Z.of_nat (nat_of_ascii c).

Definition isspace (c : ascii) : bool :=
  bool_decide (9 ≤ code c ≤ 13 ∨ 28 ≤ code c ≤ 32 ∨ code c = 133 ∨ code c = 160).

(** The characters [int] accepts as digits. *)
Definition is_decimal (c : ascii) : bool := bool_decide (48 ≤ code c ≤ 57).

Definition isdigit (c : ascii) : bool :=
  is_decimal c || bool_decide (code c = 178 ∨ code c = 179 ∨ code c = 185).

Inductive parse_outcome (A : Type) :=
  | Parsed (a : A)
  | ValueError
  | NoFuel.
Arguments Parsed {A} a.
Arguments ValueError {A}.
Arguments NoFuel {A}.

Definition and_then {A B} (o : parse_outcome A) (f : A → parse_outcome B)
  : parse_outcome B :=
  match o with
  | Parsed a => f a
  | ValueError => ValueError
  | NoFuel => NoFuel
  end.

(** Decimal value of a run of decimal digits. *)
Definition numeral_value (num : list ascii) : Z :=
  foldl (λ acc c, 10 * acc + (code c - 48)) 0 num.

(** [int(num)] for a string of [isdigit] characters. *)
Definition py_int (num : list ascii) : parse_outcome Z :=
  match num with
  | [] => ValueError
  | _ => if forallb is_decimal num then Parsed (numeral_value num)
         else ValueError
  end.

(** [if num: group.append(int(num))] *)
Definition flush (group : list Z) (num : list ascii) : parse_outcome (list Z) :=
  match num with
  | [] => Parsed group
  | _ => and_then (py_int num) (λ v, Parsed (group ++ [v]))
  end.

(** The loop [while i < n and pref_str[i] != "}"] and the flush after it;
    returns the group and the input from the closing brace on. *)
Fixpoint scan_group (s : list ascii) (group : list Z) (num : list ascii)
  : parse_outcome (list Z * list ascii) :=
  match s with
  | [] => and_then (flush group num) (λ g, Parsed (g, []))
  | c :: rest =>
      if decide (c = "}"%char) then
        and_then (flush group num) (λ g, Parsed (g, s))
      else if isdigit c then scan_group rest group (num ++ [c])
      else if decide (c = ","%char ∨ c = " "%char) then
        and_then (flush group num) (λ g, scan_group rest g [])
      else scan_group rest group num
  end.

(** The loop [while i < n and pref_str[i].isdigit()]. *)
Fixpoint scan_number (s : list ascii) (num : list ascii)
  : list ascii * list ascii :=
  match s with
  | c :: rest => if isdigit c then scan_number rest (num ++ [c]) else (num, s)
  | [] => (num, [])
  end.

(** The outer loop [while i < n], at most [fuel] passes. *)
Fixpoint parse_loop (fuel : nat) (s : list ascii) (ranking : list (list Z))
  : parse_outcome (list (list Z)) :=
  match s with
  | [] => Parsed ranking
  | c :: rest =>
      match fuel with
      | O => NoFuel
      | S fuel' =>
          if isspace c || bool_decide (c = ","%char) then
            parse_loop fuel' rest ranking
          else if decide (c = "{"%char) then
            and_then (scan_group rest [] [])
              (λ r, parse_loop fuel' (tail r.2) (ranking ++ [r.1]))
          else
            let r := scan_number s [] in
            match r.1 with
            | [] => parse_loop fuel' r.2 ranking
            | num => and_then (py_int num)
                       (λ v, parse_loop fuel' r.2 (ranking ++ [[v]]))
            end
      end
  end.

(** [parse_ranking(pref_str)], one pass allowed per character and one more. *)
Definition parse_ranking (pref_str : string) : parse_outcome (list (list Z)) :=
  let s := String.list_ascii_of_string pref_str in
  parse_loop (S (length s)) s [].

(** A numeral as [int] reads it in every CPython 3: a non-empty run of at
    most 4300 decimal digits. *)
Definition is_numeral (num : list ascii) : Prop :=
  num ≠ [] ∧ (length num ≤ 4300)%nat ∧ Forall (λ c, is_decimal c = true) num.

(** Items separated by single commas. *)
Definition commas (items : list (list ascii)) : list ascii :=
  match items with
  | [] => []
  | item :: others => item ++ concat ((λ x, ","%char :: x) <$> others)
  end.

(** A tie group as text: a lone numeral bare, otherwise the numerals
    between braces. *)
Definition render_group (group : list (list ascii)) : list ascii :=
  match group with
  | [num] => num
  | _ => "{"%char :: commas group ++ ["}"%char]
  end.

Definition render (groups : list (list (list ascii))) : list ascii :=
  commas (render_group <$> groups).

(** A character the outer loop has no case for. *)
Definition stray (c : ascii) : Prop :=
  isspace c = false ∧ c ≠ ","%char ∧ c ≠ "{"%char ∧ isdigit c = false.

End Parsing.

(** ** The tabulator on binary64 floats *)

Module Binary64.
Import Tabulator.

Local Abbreviation float := SpecFloat.spec_float.

Definition prec : Z := 53.
Definition emax : Z := 1024.

(** [x + y], [x - y], [abs(x)] and [x < y] of Python floats. *)
Definition fadd : float → float → float := SpecFloat.SFadd prec emax.
Definition fsub : float → float → float := SpecFloat.SFsub prec emax.
Definition fabs : float → float := SpecFloat.SFabs.
Definition flt : float → float → bool := SpecFloat.SFltb.

(** Neither an infinity nor a NaN. *)
Definition is_finite (x : float) : bool :=
  match x with
  | SpecFloat.S754_zero _ | SpecFloat.S754_finite _ _ _ => true
  | _ => false
  end.

Inductive exn := OverflowError | ZeroDivisionError.

Inductive outcome (A : Type) :=
  | Value (a : A)
  | Raises (e : exn)
  | Unfinished.
Arguments Value {A} a.
Arguments Raises {A} e.
Arguments Unfinished {A}.

Global Instance outcome_bind : MBind outcome := λ A B f o,
  match o with
  | Value a => f a
  | Raises e => Raises e
  | Unfinished => Unfinished
  end.

(** A Python integer as the dyadic number [n * 2^0], not yet rounded. *)
Definition of_int (n : Z) : float :=
  match n with
  | 0 => SpecFloat.S754_zero false
  | Z.pos p => SpecFloat.S754_finite false p 0
  | Z.neg p => SpecFloat.S754_finite true p 0
  end.

(** [a / b] of two Python integers: the quotient rounded once to the nearest
    float, ties to even; [OverflowError] when that is beyond the largest
    float. *)
Definition true_div (a b : Z) : outcome float :=
  if decide (b = 0) then Raises ZeroDivisionError
  else match SpecFloat.SFdiv prec emax (of_int a) (of_int b) with
       | SpecFloat.S754_infinity _ => Raises OverflowError
       | q => Value q
       end.

(** [0.0] *)
Definition zero : float := SpecFloat.S754_zero false.

(** [1e-9]: the float nearest to 10^-9, which is 4835703278458517 * 2^-82. *)
Definition tolerance : float :=
  SpecFloat.S754_finite false 4835703278458517 (-82).

(** [{c: 0.0 for c in remaining}] *)
Definition zero_scores (remaining : list Z) : gmap Z float :=
  foldl (λ scores c, <[c := zero]> scores) ∅ remaining.

(** [scores[c]]; the key is always present where the source reads it. *)
Definition score (scores : gmap Z float) (c : Z) : float :=
  default zero (scores !! c).

(** [weight / len(group_rem)] *)
Definition share (weight : Z) (members : list Z) : outcome float :=
  true_div weight (Z.of_nat (length members)).

(** [for c in group_rem: scores[c] += share] *)
Definition add_share (sh : float) (members : list Z) (scores : gmap Z float)
  : gmap Z float :=
  foldl (λ sc c, alter (λ s, fadd s sh) c sc) scores members.

(** The body of [for weight, ranking in ballots]. *)
Fixpoint credit_ballot (remaining : list Z) (weight : Z)
    (groups : list (list Z)) (scores : gmap Z float)
  : outcome (gmap Z float) :=
  match groups with
  | [] => Value scores
  | group :: later =>
      match group_rem remaining group with
      | [] => credit_ballot remaining weight later scores
      | members =>
          sh ← share weight members;
          Value (add_share sh members scores)
      end
  end.

(** [for weight, ranking in ballots: ...], from the table built so far. *)
Fixpoint credit_ballots (remaining : list Z)
    (ballots : list (Z * list (list Z))) (scores : gmap Z float)
  : outcome (gmap Z float) :=
  match ballots with
  | [] => Value scores
  | b :: later =>
      scores' ← credit_ballot remaining b.1 b.2 scores;
      credit_ballots remaining later scores'
  end.

Definition plurality_scores (remaining : list Z)
    (ballots : list (Z * list (list Z))) : outcome (gmap Z float) :=
  credit_ballots remaining ballots (zero_scores remaining).

(** One step of [min]: the item replaces the current minimum when
    [item < minimum]. *)
Definition py_min (a b : float) : float := if flt b a then b else a.

(** [min(scores[c] for c in remaining)]; the loop guard keeps [remaining]
    non-empty. *)
Definition min_score (scores : gmap Z float) (remaining : list Z) : float :=
  match remaining with
  | [] => zero
  | c :: others =>
      foldl (λ m c', py_min m (score scores c')) (score scores c) others
  end.

(** [abs(scores[c] - min_score) < 1e-9] *)
Definition is_loser (scores : gmap Z float) (m : float) (c : Z) : bool :=
  flt (fabs (fsub (score scores c) m)) tolerance.

(** [[c for c in remaining if abs(scores[c] - min_score) < 1e-9]] *)
Definition round_losers (rem : list Z) (ballots : list (Z * list (list Z)))
  : outcome (list Z) :=
  scores ← plurality_scores rem ballots;
  Value (filter (λ c, is_loser scores (min_score scores rem) c = true) rem).

(** One pass through the body of [while remaining]. *)
Definition stv_round (ballots : list (Z * list (list Z))) (st : stv_state)
  : outcome stv_state :=
  losers ← round_losers (remaining st) ballots;
  let st' := foldl eliminate st losers in
  Value {| remaining := remaining st';
           elimination_order := elimination_order st';
           last_losers := Some losers |}.

Fixpoint stv_loop (fuel : nat) (ballots : list (Z * list (list Z)))
    (st : stv_state) : outcome stv_state :=
  match remaining st with
  | [] => Value st
  | _ :: _ =>
      match fuel with
      | O => Unfinished
      | S fuel' =>
          st' ← stv_round ballots st;
          stv_loop fuel' ballots st'
      end
  end.

Section Enumeration.
(** The order in which CPython enumerates [set(candidates)] follows the
    slots of its hash table; it is a parameter here.  Removing an element
    leaves the others in their slots, so [set.remove] filters the
    enumeration. *)
Variable set_order : list Z → list Z.

(** [remaining = set(candidates); elimination_order = []; last_losers = None] *)
Definition stv_init (candidates : list Z) : stv_state :=
  {| remaining := set_order candidates;
     elimination_order := [];
     last_losers := None |}.

(** [stv] with an explicit bound on the number of rounds. *)
Definition stv_fuel (fuel : nat) (candidates : list Z)
    (ballots : list (Z * list (list Z)))
  : outcome (option (list Z) * list Z) :=
  st ← stv_loop fuel ballots (stv_init candidates);
  Value (last_losers st, elimination_order st).

(** [stv(candidates, ballots)]: (winners, elimination_order). *)
Definition stv (candidates : list Z) (ballots : list (Z * list (list Z)))
  : outcome (option (list Z) * list Z) :=
  stv_fuel (length candidates) candidates ballots.

End Enumeration.

(** What an enumeration of [set(candidates)] is: every candidate once. *)
Definition enumerates (enumeration candidates : list Z) : Prop :=
  NoDup enumeration ∧ ∀ c, c ∈ enumeration ↔ c ∈ candidates.

(** [rounds ballots n st st']: [n] passes through the loop body lead from
    [st] to [st']. *)
Inductive rounds (ballots : list (Z * list (list Z)))
  : nat → stv_state → stv_state → Prop :=
  | rounds_O st : rounds ballots 0 st st
  | rounds_S n st next st' :
      remaining st ≠ [] →
      stv_round ballots st = Value next →
      rounds ballots n next st' →
      rounds ballots (S n) st st'.

(** The scores of a round are computed and the lowest is finite. *)
Definition round_finite (rem : list Z) (ballots : list (Z * list (list Z)))
  : bool :=
  match plurality_scores rem ballots with
  | Value scores => is_finite (min_score scores rem)
  | _ => false
  end.

(** Every round that the loop gets to from [st] is finite. *)
Definition rounds_finite (ballots : list (Z * list (list Z)))
    (st : stv_state) : Prop :=
  ∀ n st', rounds ballots n st st' → remaining st' ≠ [] →
           round_finite (remaining st') ballots = true.

(** The loop run with a check of every round it gets to. *)
Fixpoint finite_run (fuel : nat) (ballots : list (Z * list (list Z)))
    (st : stv_state) : bool :=
  match remaining st with
  | [] => true
  | _ :: _ =>
      match fuel with
      | O => false
      | S fuel' =>
          round_finite (remaining st) ballots &&
          match stv_round ballots st with
          | Value st' => finite_run fuel' ballots st'
          | _ => false
          end
      end
  end.

(** Two ballot types of weight 10^308 for candidate 1: each share is a
    float, their sum is not. *)
Definition heavy_ballots : list (Z * list (list Z)) :=
  [(10 ^ 308, [[1]]); (10 ^ 308, [[1]])].

(** One ballot type of weight 2^1024: its share is beyond the floats. *)
Definition huge_ballots : list (Z * list (list Z)) :=
  [(2 ^ 1024, [[1]])].

(** Candidate 2 is the first choice of 2^53 + 1 of the 2^54 + 1 voters. *)
Definition close_ballots : list (Z * list (list Z)) :=
  [(2 ^ 53, [[1]]); (2 ^ 53 + 1, [[2]])].

End Binary64.

(** ** The tabulator with exact scores: the loop state and the minimum *)

Section TabulatorFacts.
Implicit Types (st : stv_state) (ballots : list (Z * list (list Z))).
Implicit Types (rem losers : list Z) (scores : gmap Z Qc).

Lemma foldl_eliminate losers st :
  foldl eliminate st losers =
  {| remaining := filter (λ x, x ∉ losers) (remaining st);
     elimination_order := elimination_order st ++ losers;
     last_losers := last_losers st |}.
Proof.
  revert st. induction losers as [|c losers IH]; intros [rem order last]; simpl.
  - f_equal; [|by rewrite app_nil_r].
    induction rem as [|x rem IHrem]; [done|].
    rewrite filter_cons_True by apply not_elem_of_nil. by f_equal.
  - rewrite IH. simpl. f_equal; [|by rewrite <-app_assoc].
    rewrite list_filter_filter. apply list_filter_iff.
    intros x. rewrite not_elem_of_cons. tauto.
Qed.

Lemma stv_round_unfold ballots st :
  stv_round ballots st =
  {| remaining := filter (λ x, x ∉ round_losers (remaining st) ballots)
                         (remaining st);
     elimination_order :=
       elimination_order st ++ round_losers (remaining st) ballots;
     last_losers := Some (round_losers (remaining st) ballots) |}.
Proof. unfold stv_round. by rewrite foldl_eliminate. Qed.

(** The minimum is the score of some remaining candidate. *)
Lemma foldl_py_min_attained scores m others :
  foldl (λ m c', py_min m (score scores c')) m others = m ∨
  ∃ c, c ∈ others ∧
       foldl (λ m c', py_min m (score scores c')) m others = score scores c.
Proof.
  revert m. induction others as [|c others IH]; intros m; simpl; [by left|].
  destruct (IH (py_min m (score scores c))) as [->|(c' & Hc' & ->)].
  - unfold py_min. case_decide; [right; exists c; split; [left|done]|by left].
  - right. exists c'. split; [by right|done].
Qed.

Lemma min_score_attained scores rem :
  rem ≠ [] → ∃ c, c ∈ rem ∧ min_score scores rem = score scores c.
Proof.
  destruct rem as [|c others]; [done|intros _]. simpl.
  destruct (foldl_py_min_attained scores (score scores c) others)
    as [->|(c' & Hc' & ->)].
  - exists c. split; [left|done].
  - exists c'. split; [by right|done].
Qed.

Lemma filter_ext_elem (P1 P2 : Z → Prop)
    `{!∀ x, Decision (P1 x), !∀ x, Decision (P2 x)} (l : list Z) :
  (∀ x, x ∈ l → P1 x ↔ P2 x) → filter P1 l = filter P2 l.
Proof.
  induction l as [|a l IH]; intros Hiff; [done|].
  rewrite !filter_cons.
  rewrite IH by (intros x Hx; apply Hiff; by right).
  apply decide_ext, Hiff. left.
Qed.

Lemma filter_all (P : Z → Prop) `{!∀ x, Decision (P x)} (l : list Z) :
  (∀ x, x ∈ l → P x) → filter P l = l.
Proof.
  induction l as [|a l IH]; intros HP; [done|].
  rewrite filter_cons_True by (apply HP; left).
  f_equal. apply IH. intros x Hx. apply HP. by right.
Qed.

End TabulatorFacts.


(** ** The tabulator on floats: rounds, termination, coverage *)

Section Binary64Facts.
Import Binary64.
Implicit Types (st : stv_state) (ballots : list (Z * list (list Z))).
Implicit Types (rem losers : list Z).
Implicit Types (scores : gmap Z SpecFloat.spec_float).
Implicit Types (v m : SpecFloat.spec_float).

(** The division at some inputs: 1 / 3 and 1 / 10^9 are rounded to the
    nearest float, the latter being the literal [1e-9]; 2^53 + 1 is half-way
    between two floats and goes to the even one; the largest float is
    2^1024 - 2^971, and a quotient rounds to it up to 2^1024 - 2^970
    excluded, from where on the division raises [OverflowError]. *)
Lemma true_div_examples :
  true_div 1 3 = Value (SpecFloat.S754_finite false 6004799503160661 (-54)) ∧
  true_div 1 (10 ^ 9) = Value tolerance ∧
  true_div 0 3 = Value zero ∧
  true_div (2 ^ 53 + 1) 1 = true_div (2 ^ 53) 1 ∧
  true_div (2 ^ 53 + 3) 1 = true_div (2 ^ 53 + 4) 1 ∧
  true_div (2 ^ 1024 - 2 ^ 970 - 1) 1 = true_div (2 ^ 1024 - 2 ^ 971) 1 ∧
  true_div (2 ^ 1024 - 2 ^ 970) 1 = Raises OverflowError ∧
  true_div 7 0 = Raises ZeroDivisionError.
Proof. repeat split; vm_compute; reflexivity. Qed.

(** A finite float minus itself is [0.0]. *)
Lemma fsub_diag v : is_finite v = true → fsub v v = zero.
Proof.
  destruct v as [s|s| |s mx e]; try done; intros _.
  - by destruct s.
  - unfold fsub, SpecFloat.SFsub.
    set (z := SpecFloat.cond_Zopp s _).
    by replace (IntDef.Z.sub z z) with 0 by (symmetry; apply Z.sub_diag).
Qed.

Lemma float_is_loser_min scores c :
  is_finite (score scores c) = true →
  is_loser scores (score scores c) c = true.
Proof. intros Hfin. unfold is_loser. by rewrite fsub_diag. Qed.

(** Nothing is within the tolerance of an infinity or of a NaN. *)
Lemma float_is_loser_finite scores m c :
  is_loser scores m c = true → is_finite m = true.
Proof.
  unfold is_loser.
  destruct m as [s|s| |s mm e]; try done;
    destruct (score scores c) as [s'|s'| |s' m' e']; try done;
    destruct s; try destruct s'; done.
Qed.

(** The minimum is the score of some remaining candidate. *)
Lemma float_py_min_attained scores m others :
  foldl (λ m c', py_min m (score scores c')) m others = m ∨
  ∃ c, c ∈ others ∧
       foldl (λ m c', py_min m (score scores c')) m others = score scores c.
Proof.
  revert m. induction others as [|c others IH]; intros m; simpl; [by left|].
  destruct (IH (py_min m (score scores c))) as [->|(c' & Hc' & ->)].
  - unfold py_min.
    destruct (flt _ _); [right; exists c; split; [left|done]|by left].
  - right. exists c'. split; [by right|done].
Qed.

Lemma float_min_score_attained scores rem :
  rem ≠ [] → ∃ c, c ∈ rem ∧ min_score scores rem = score scores c.
Proof.
  destruct rem as [|c others]; [done|intros _]. simpl.
  destruct (float_py_min_attained scores (score scores c) others)
    as [->|(c' & Hc' & ->)].
  - exists c. split; [left|done].
  - exists c'. split; [by right|done].
Qed.

Lemma float_round_losers_Value rem ballots losers :
  round_losers rem ballots = Value losers →
  ∃ scores,
    plurality_scores rem ballots = Value scores ∧
    losers = filter (λ c, is_loser scores (min_score scores rem) c = true) rem.
Proof.
  unfold round_losers.
  destruct (plurality_scores rem ballots) as [scores| |]; simpl; [|done..].
  intros [= <-]. eauto.
Qed.

Lemma float_round_losers_subseteq rem ballots losers c :
  round_losers rem ballots = Value losers → c ∈ losers → c ∈ rem.
Proof.
  intros (scores & _ & ->)%float_round_losers_Value.
  rewrite list_elem_of_filter. tauto.
Qed.

(** A round with a finite lowest score removes a candidate. *)
Lemma round_finite_losers rem ballots :
  rem ≠ [] → round_finite rem ballots = true →
  ∃ losers c, round_losers rem ballots = Value losers ∧ c ∈ losers.
Proof.
  intros Hrem. unfold round_finite, round_losers.
  destruct (plurality_scores rem ballots) as [scores| |]; simpl; [|done..].
  intros Hfin.
  destruct (float_min_score_attained scores rem Hrem) as (c & Hc & Hmin).
  eexists _, c. split; [done|].
  apply list_elem_of_filter. split; [|done].
  rewrite Hmin in Hfin |- *. by apply float_is_loser_min.
Qed.

(** A round that removes a candidate had a finite lowest score. *)
Lemma round_losers_finite rem ballots losers c :
  round_losers rem ballots = Value losers → c ∈ losers →
  round_finite rem ballots = true.
Proof.
  intros (scores & Hsc & ->)%float_round_losers_Value.
  rewrite list_elem_of_filter. intros [Hc _].
  unfold round_finite. rewrite Hsc. by eapply float_is_loser_finite.
Qed.

Lemma float_stv_round_Value ballots st st' :
  stv_round ballots st = Value st' →
  ∃ losers,
    round_losers (remaining st) ballots = Value losers ∧
    st' = {| remaining := filter (λ x, x ∉ losers) (remaining st);
             elimination_order := elimination_order st ++ losers;
             last_losers := Some losers |}.
Proof.
  unfold stv_round.
  destruct (round_losers (remaining st) ballots) as [losers| |]; simpl;
    [|done..].
  intros [= <-]. exists losers. split; [done|]. by rewrite foldl_eliminate.
Qed.

Lemma float_stv_round_losers ballots st losers :
  round_losers (remaining st) ballots = Value losers →
  stv_round ballots st =
  Value {| remaining := filter (λ x, x ∉ losers) (remaining st);
           elimination_order := elimination_order st ++ losers;
           last_losers := Some losers |}.
Proof. intros Hl. unfold stv_round. rewrite Hl. simpl. by rewrite foldl_eliminate. Qed.

(** A finite round goes through and leaves fewer candidates. *)
Lemma float_stv_round_shrinks ballots st :
  remaining st ≠ [] → round_finite (remaining st) ballots = true →
  ∃ st', stv_round ballots st = Value st' ∧
         (length (remaining st') < length (remaining st))%nat.
Proof.
  intros Hrem Hfin.
  destruct (round_finite_losers _ _ Hrem Hfin) as (losers & c & Hl & Hc).
  eexists. split; [by apply float_stv_round_losers|]. simpl.
  apply (length_filter_lt _ _ c).
  - by eapply float_round_losers_subseteq.
  - intros Hnot. by apply Hnot.
Qed.

(** What is removed in a round and what stays make up the remaining set. *)
Lemma float_stv_round_conserves ballots st st' :
  stv_round ballots st = Value st' →
  elimination_order st' ++ remaining st' ≡ₚ elimination_order st ++ remaining st.
Proof.
  intros (losers & Hl & ->)%float_stv_round_Value. simpl.
  apply float_round_losers_Value in Hl as (scores & _ & Hl).
  rewrite <-app_assoc. f_equiv.
  set (P := λ c, is_loser scores (min_score scores (remaining st)) c = true)
    in Hl.
  etrans; [|apply (filter_app_complement P)].
  rewrite Hl at 1. f_equiv. apply reflexive_eq, filter_ext_elem.
  intros x Hx. rewrite Hl, list_elem_of_filter. tauto.
Qed.

Lemma float_stv_round_survivors ballots st st' (init : list Z) :
  stv_round ballots st = Value st' →
  remaining st = filter (λ x, x ∉ elimination_order st) init →
  remaining st' = filter (λ x, x ∉ elimination_order st') init.
Proof.
  intros (losers & _ & ->)%float_stv_round_Value Hst. simpl.
  rewrite Hst, list_filter_filter.
  apply list_filter_iff. intros x. rewrite not_elem_of_app. tauto.
Qed.

(** When a round empties the set, it removed all that was left. *)
Lemma float_stv_round_final ballots st st' :
  stv_round ballots st = Value st' → remaining st' = [] →
  round_losers (remaining st) ballots = Value (remaining st) ∧
  st' = {| remaining := [];
           elimination_order := elimination_order st ++ remaining st;
           last_losers := Some (remaining st) |}.
Proof.
  intros (losers & Hl & ->)%float_stv_round_Value. simpl. intros Hnil.
  assert (losers = remaining st) as ->; [|by rewrite Hnil].
  pose proof Hl as (scores & _ & Heq)%float_round_losers_Value.
  rewrite Heq. apply filter_all. intros x Hx.
  destruct (decide (x ∈ losers)) as [Hin|Hout].
  - rewrite Heq in Hin. apply list_elem_of_filter in Hin. tauto.
  - exfalso. eapply (filter_nil_not_elem_of _ _ x); [exact Hnil| |exact Hx].
    done.
Qed.

Lemma rounds_conserves ballots n st st' :
  rounds ballots n st st' →
  elimination_order st' ++ remaining st' ≡ₚ elimination_order st ++ remaining st.
Proof.
  induction 1 as [st|n st next st' _ Hround _ IH]; [done|].
  by rewrite IH, (float_stv_round_conserves _ _ _ Hround).
Qed.

Lemma rounds_survivors ballots n st st' (init : list Z) :
  rounds ballots n st st' →
  remaining st = filter (λ x, x ∉ elimination_order st) init →
  remaining st' = filter (λ x, x ∉ elimination_order st') init.
Proof.
  induction 1 as [st|n st next st' _ Hround _ IH]; [done|].
  intros Hst. apply IH. by eapply float_stv_round_survivors.
Qed.

(** The last of [S n] rounds. *)
Lemma rounds_last ballots n st st' :
  rounds ballots (S n) st st' →
  ∃ mid, rounds ballots n st mid ∧ remaining mid ≠ [] ∧
         stv_round ballots mid = Value st'.
Proof.
  revert st. induction n as [|n IH]; intros st Hrun.
  - inversion Hrun as [|? ? next ? Hrem Hround Hrest]; subst.
    inversion Hrest; subst.
    exists st. split; [constructor|done].
  - inversion Hrun as [|? ? next ? Hrem Hround Hrest]; subst.
    destruct (IH next Hrest) as (mid & Hmid & Hne & Hlast).
    exists mid. split; [|done]. by econstructor.
Qed.

Lemma rounds_finite_next ballots st next :
  remaining st ≠ [] → stv_round ballots st = Value next →
  rounds_finite ballots st → rounds_finite ballots next.
Proof.
  intros Hrem Hround Hfin n st' Hrun. apply (Hfin (S n)). by econstructor.
Qed.

(** With finite rounds the loop ends, within one round per candidate. *)
Lemma float_stv_loop_finite ballots fuel st :
  rounds_finite ballots st →
  (length (remaining st) ≤ fuel)%nat →
  ∃ n final,
    (n ≤ length (remaining st))%nat ∧
    rounds ballots n st final ∧
    remaining final = [] ∧
    stv_loop fuel ballots st = Value final.
Proof.
  revert st. induction fuel as [|fuel IH]; intros st Hfin Hlen.
  - assert (remaining st = []) as Hrem.
    { destruct (remaining st); [done|simpl in Hlen; lia]. }
    exists 0%nat, st. simpl. rewrite Hrem.
    repeat split; [done|constructor].
  - destruct (decide (remaining st = [])) as [Hrem|Hne].
    + exists 0%nat, st. simpl. rewrite Hrem.
      repeat split; [lia|constructor].
    + destruct (float_stv_round_shrinks ballots st Hne) as (next & Hround & Hlt).
      { apply (Hfin 0%nat); [constructor|done]. }
      destruct (IH next) as (n & final & Hn & Hrun & Hend & Hloop);
        [by eapply rounds_finite_next|lia|].
      exists (S n), final. split; [lia|]. split; [by econstructor|].
      split; [done|]. simpl.
      destruct (remaining st); [done|]. by rewrite Hround.
Qed.

(** What the loop returns was reached by rounds, and nothing remains. *)
Lemma float_stv_loop_Value ballots fuel st final :
  stv_loop fuel ballots st = Value final →
  ∃ n, rounds ballots n st final ∧ remaining final = [].
Proof.
  revert st. induction fuel as [|fuel IH]; intros st; simpl.
  - destruct (remaining st) eqn:Hrem; [|done].
    intros [= <-]. exists 0%nat. split; [constructor|done].
  - destruct (decide (remaining st = [])) as [Hrem|Hne].
    + rewrite Hrem. intros [= <-]. exists 0%nat. split; [constructor|done].
    + destruct (remaining st) as [|c others] eqn:Hrem; [done|].
      destruct (stv_round ballots st) as [next| |] eqn:Hround; simpl; [|done..].
      intros (n & Hrun & Hend)%IH.
      exists (S n). split; [|done].
      econstructor; [|exact Hround|exact Hrun]. by rewrite Hrem.
Qed.

(** More fuel does not change what the loop returns. *)
Lemma float_stv_loop_more_fuel ballots fuel fuel' st final :
  stv_loop fuel ballots st = Value final → (fuel ≤ fuel')%nat →
  stv_loop fuel' ballots st = Value final.
Proof.
  revert fuel' st. induction fuel as [|fuel IH]; intros fuel' st; simpl.
  - destruct (remaining st) eqn:Hrem; [|done].
    intros [= <-] _. destruct fuel'; simpl; by rewrite Hrem.
  - destruct (remaining st) as [|c others] eqn:Hrem.
    + intros [= <-] _. destruct fuel'; simpl; by rewrite Hrem.
    + destruct (stv_round ballots st) as [next| |] eqn:Hround; simpl; [|done..].
      intros Hloop Hle. destruct fuel' as [|fuel']; [lia|].
      simpl. rewrite Hrem, Hround. simpl. apply (IH fuel'); [done|lia].
Qed.

(** A round in which nobody is within the tolerance of the lowest score
    leaves the set as it is, and the loop goes on for ever. *)
Lemma float_stv_loop_stuck ballots fuel st :
  remaining st ≠ [] →
  round_losers (remaining st) ballots = Value [] →
  stv_loop fuel ballots st = Unfinished.
Proof.
  revert st. induction fuel as [|fuel IH]; intros st Hrem Hl; simpl.
  - by destruct (remaining st).
  - destruct (remaining st) as [|c others] eqn:Hst; [done|].
    rewrite (float_stv_round_losers ballots st []) by by rewrite Hst.
    simpl. apply IH; simpl.
    + rewrite Hst. rewrite filter_all; [done|]. intros x _. apply not_elem_of_nil.
    + rewrite Hst. rewrite filter_all by (intros x _; apply not_elem_of_nil).
      done.
Qed.

(** The check by evaluation is sound. *)
Lemma finite_run_sound ballots fuel st :
  finite_run fuel ballots st = true → rounds_finite ballots st.
Proof.
  revert st. induction fuel as [|fuel IH]; intros st; simpl.
  - destruct (remaining st) eqn:Hrem; [|done]. intros _ n st' Hrun.
    inversion Hrun; subst; by rewrite ?Hrem.
  - destruct (remaining st) as [|c others] eqn:Hrem.
    + intros _ n st' Hrun. inversion Hrun; subst; by rewrite ?Hrem.
    + intros [Hfin Hrest]%andb_prop.
      destruct (stv_round ballots st) as [next| |] eqn:Hround; [|done..].
      intros n st' Hrun.
      inversion Hrun as [|n' ? next' ? _ Hround' Hrun']; subst.
      * intros _. by rewrite Hrem.
      * rewrite Hround in Hround'. injection Hround' as <-.
        by apply (IH next Hrest n').
Qed.

Lemma enumerates_length enumeration candidates :
  enumerates enumeration candidates →
  (length enumeration ≤ length candidates)%nat.
Proof.
  intros [Hnd Hin]. apply submseteq_length, NoDup_submseteq; [done|].
  intros c. apply Hin.
Qed.

Lemma enumerates_nonempty enumeration candidates :
  enumerates enumeration candidates → candidates ≠ [] → enumeration ≠ [].
Proof.
  intros [_ Hin] Hne ->. destruct candidates as [|c l]; [done|].
  eapply not_elem_of_nil, Hin. left.
Qed.

Lemma filter_not_elem_nil (l : list Z) : filter (λ x, x ∉ []) l = l.
Proof. apply filter_all. intros x _. apply not_elem_of_nil. Qed.

End Binary64Facts.

(** C3 (as the code has it).  When every round that the loop gets to
    computes its scores and has a finite lowest score, [stv] terminates:
    the loop body runs [n] times, at most once per candidate, every pass
    leaves fewer candidates, after the last nothing remains; any fuel of at
    least the number of candidates gives the same result; and the
    elimination order returned lists every candidate of the candidate set
    exactly once. *)
Theorem stv_finite_rounds_terminate (set_order : list Z → list Z)
    (candidates : list Z) (ballots : list (Z * list (list Z))) :
  Binary64.enumerates (set_order candidates) candidates →
  Binary64.rounds_finite ballots (Binary64.stv_init set_order candidates) →
  ∃ n final,
    Binary64.rounds ballots n (Binary64.stv_init set_order candidates) final ∧
    (n ≤ length candidates)%nat ∧
    remaining final = [] ∧
    (∀ m st,
       Binary64.rounds ballots m (Binary64.stv_init set_order candidates) st →
       remaining st ≠ [] →
       ∃ st', Binary64.stv_round ballots st = Binary64.Value st' ∧
              (length (remaining st') < length (remaining st))%nat) ∧
    Binary64.stv set_order candidates ballots =
      Binary64.Value (last_losers final, elimination_order final) ∧
    (∀ fuel, (length candidates ≤ fuel)%nat →
       Binary64.stv_fuel set_order fuel candidates ballots =
       Binary64.stv set_order candidates ballots) ∧
    elimination_order final ≡ₚ set_order candidates ∧
    NoDup (elimination_order final) ∧
    (∀ c, c ∈ elimination_order final ↔ c ∈ candidates).
Proof.
  intros Henum Hfin.
  pose proof (enumerates_length _ _ Henum) as Hlen.
  destruct (float_stv_loop_finite ballots (length candidates)
              (Binary64.stv_init set_order candidates) Hfin Hlen)
    as (n & final & Hn & Hrun & Hend & Hloop).
  assert (elimination_order final ≡ₚ set_order candidates) as Hperm.
  { pose proof (rounds_conserves _ _ _ _ Hrun) as Hcons.
    rewrite Hend, app_nil_r in Hcons. exact Hcons. }
  exists n, final. split; [done|]. split; [simpl in Hn; lia|].
  split; [done|]. split.
  { intros m st Hst Hne. apply float_stv_round_shrinks; [done|]. by apply (Hfin m). }
  assert (Binary64.stv set_order candidates ballots =
          Binary64.Value (last_losers final, elimination_order final)) as Hstv.
  { unfold Binary64.stv, Binary64.stv_fuel. by rewrite Hloop. }
  split; [done|]. split.
  { intros fuel Hfuel. rewrite Hstv. unfold Binary64.stv_fuel.
    by rewrite (float_stv_loop_more_fuel _ _ _ _ _ Hloop Hfuel). }
  destruct Henum as [Hnd Hin].
  split; [done|]. split.
  - by rewrite Hperm.
  - intros c. rewrite Hperm. apply Hin.
Qed.

Lemma remove_dups_enumerates (candidates : list Z) :
  Binary64.enumerates (remove_dups candidates) candidates.
Proof.
  split; [apply NoDup_remove_dups|]. intros c. apply elem_of_remove_dups.
Qed.

Lemma stv_finite_rounds_terminate_witness :
  (Binary64.enumerates (remove_dups [1; 2; 3]) [1; 2; 3] ∧
   Binary64.rounds_finite example_ballots
     (Binary64.stv_init remove_dups [1; 2; 3])) ∧
  ∃ n final,
    Binary64.rounds example_ballots n
      (Binary64.stv_init remove_dups [1; 2; 3]) final ∧
    (n ≤ 3)%nat ∧
    remaining final = [] ∧
    Binary64.stv remove_dups [1; 2; 3] example_ballots =
      Binary64.Value (last_losers final, elimination_order final) ∧
    elimination_order final ≡ₚ [1; 2; 3].
Proof.
  assert (Binary64.enumerates (remove_dups [1; 2; 3]) [1; 2; 3]) as Henum
    by apply remove_dups_enumerates.
  assert (Binary64.rounds_finite example_ballots
            (Binary64.stv_init remove_dups [1; 2; 3])) as Hfin.
  { apply (finite_run_sound _ 3). vm_compute. reflexivity. }
  split; [by split|].
  destruct (stv_finite_rounds_terminate remove_dups [1; 2; 3] example_ballots
              Henum Hfin)
    as (n & final & Hrun & Hn & Hend & _ & Hstv & _ & Hperm & _).
  exists n, final. by repeat split.
Defined.

(** C3 as stated fails.  With the single candidate 1 and two ballot types
    of weight 10^308 for it, each share is a float but the score is their
    sum, an infinity; no score is within the tolerance of an infinite
    minimum, so the round removes nobody and the loop never ends, whatever
    the fuel.  With one ballot type of weight 2^1024 the share itself is
    beyond the floats and [stv] raises [OverflowError].  (The set {1} has
    the one enumeration [[1]].) *)
Lemma stv_heavy_ballots_never_return :
  Binary64.round_losers [1] Binary64.heavy_ballots = Binary64.Value [] ∧
  (∀ fuel, Binary64.stv_fuel remove_dups fuel [1] Binary64.heavy_ballots
           = Binary64.Unfinished) ∧
  (∀ fuel, Binary64.stv_fuel remove_dups (S fuel) [1] Binary64.huge_ballots
           = Binary64.Raises Binary64.OverflowError) ∧
  ¬ ∃ fuel result,
      Binary64.stv_fuel remove_dups fuel [1] Binary64.heavy_ballots
      = Binary64.Value result.
Proof.
  assert (Binary64.round_losers [1] Binary64.heavy_ballots = Binary64.Value [])
    as Hnone by (vm_compute; reflexivity).
  assert (∀ fuel, Binary64.stv_fuel remove_dups fuel [1] Binary64.heavy_ballots
                  = Binary64.Unfinished) as Hloop.
  { intros fuel. unfold Binary64.stv_fuel.
    by rewrite float_stv_loop_stuck. }
  split; [done|]. split; [done|]. split.
  - intros fuel. vm_compute. reflexivity.
  - intros (fuel & result & Hrun). by rewrite Hloop in Hrun.
Qed.

(** C2 (as the code has it).  Each round appends its co-lowest candidates to
    the elimination order one by one, so the order is a flat list of
    candidates.  With a non-empty candidate set, whenever [stv] returns, the
    winners are the candidates removed in the last round, they are all the
    candidates not eliminated earlier, in the order in which the set
    enumerates them, and they are the final segment of the elimination
    order; and [stv] does return when every round it gets to is finite. *)
Theorem stv_winners_final_segment (set_order : list Z → list Z)
    (candidates : list Z) (ballots : list (Z * list (list Z))) :
  Binary64.enumerates (set_order candidates) candidates →
  candidates ≠ [] →
  (∀ st st',
     Binary64.stv_round ballots st = Binary64.Value st' →
     ∃ losers,
       Binary64.round_losers (remaining st) ballots = Binary64.Value losers ∧
       elimination_order st' = elimination_order st ++ losers ∧
       last_losers st' = Some losers) ∧
  (∀ fuel winners order,
     Binary64.stv_fuel set_order fuel candidates ballots
       = Binary64.Value (winners, order) →
     ∃ ws earlier,
       winners = Some ws ∧ order = earlier ++ ws ∧
       ws ≠ [] ∧
       ws = filter (λ c, c ∉ earlier) (set_order candidates) ∧
       Binary64.round_losers ws ballots = Binary64.Value ws) ∧
  (Binary64.rounds_finite ballots (Binary64.stv_init set_order candidates) →
   ∃ ws earlier,
     Binary64.stv set_order candidates ballots
       = Binary64.Value (Some ws, earlier ++ ws)).
Proof.
  intros Henum Hne.
  assert (∀ fuel winners order,
     Binary64.stv_fuel set_order fuel candidates ballots
       = Binary64.Value (winners, order) →
     ∃ ws earlier,
       winners = Some ws ∧ order = earlier ++ ws ∧
       ws ≠ [] ∧
       ws = filter (λ c, c ∉ earlier) (set_order candidates) ∧
       Binary64.round_losers ws ballots = Binary64.Value ws) as Hshape.
  { intros fuel winners order. unfold Binary64.stv_fuel.
    destruct (Binary64.stv_loop fuel ballots _) as [final| |] eqn:Hloop;
      simpl; [|done..].
    intros [= <- <-].
    apply float_stv_loop_Value in Hloop as (n & Hrun & Hend).
    destruct n as [|n].
    { inversion Hrun; subst. simpl in Hend.
      by destruct (enumerates_nonempty _ _ Henum Hne). }
    apply rounds_last in Hrun as (mid & Hrun & Hmid & Hround).
    destruct (float_stv_round_final _ _ _ Hround Hend) as [Hall ->].
    exists (remaining mid), (elimination_order mid).
    split; [done|]. split; [done|]. split; [done|]. split; [|done].
    apply (rounds_survivors _ _ _ _ _ Hrun). simpl.
    by rewrite filter_not_elem_nil. }
  split; [|split; [exact Hshape|]].
  - intros st st' (losers & Hl & ->)%float_stv_round_Value. by exists losers.
  - intros Hfin.
    destruct (float_stv_loop_finite ballots (length candidates)
                (Binary64.stv_init set_order candidates) Hfin)
      as (n & final & _ & _ & _ & Hloop); [by apply enumerates_length|].
    destruct (Hshape (length candidates) (last_losers final)
                (elimination_order final)) as (ws & earlier & Hw & Ho & _).
    { unfold Binary64.stv_fuel. by rewrite Hloop. }
    exists ws, earlier. unfold Binary64.stv, Binary64.stv_fuel.
    rewrite Hloop. simpl. by rewrite Hw, Ho.
Qed.

Lemma stv_winners_final_segment_witness :
  (Binary64.enumerates (remove_dups [1; 2]) [1; 2] ∧
   [1; 2] ≠ ([] : list Z) ∧
   Binary64.stv_fuel remove_dups 1 [1; 2] []
     = Binary64.Value (Some [1; 2], [1; 2])) ∧
  ∃ earlier,
    [1; 2] = earlier ++ [1; 2] ∧
    [1; 2] = filter (λ c, c ∉ earlier) (remove_dups [1; 2]).
Proof.
  assert (Binary64.enumerates (remove_dups [1; 2]) [1; 2]) as Henum
    by apply remove_dups_enumerates.
  assert ([1; 2] ≠ ([] : list Z)) as Hne by discriminate.
  assert (Binary64.stv_fuel remove_dups 1 [1; 2] []
          = Binary64.Value (Some [1; 2], [1; 2])) as Hrun
    by (vm_compute; reflexivity).
  split; [split; [exact Henum|split; [exact Hne|exact Hrun]]|].
  destruct (stv_winners_final_segment remove_dups [1; 2] [] Henum Hne)
    as (_ & Hshape & _).
  destruct (Hshape 1%nat (Some [1; 2]) [1; 2] Hrun)
    as (ws & earlier & [= <-] & Horder & _ & Hws & _).
  by exists earlier.
Defined.


(** C2 as stated fails: with two candidates and no ballots both are removed
    in the one round, the elimination order gets the two entries 1 and 2,
    and its last entry is candidate 2 alone, not the winners [1; 2]. *)
Lemma stv_last_entry_not_winners :
  stv [1; 2] [] = Some (Some [1; 2], [1; 2]) ∧
  ¬ ∃ winners order,
      stv [1; 2] [] = Some (Some winners, order) ∧
      last (order_entries order) = Some winners.
Proof.
  split; [by vm_compute|].
  intros (winners & order & Hrun & Hlast).
  vm_compute in Hrun. injection Hrun as <- <-. by vm_compute in Hlast.
Qed.

Ltac qc_eval := apply Qc_is_canon; vm_compute; reflexivity.

(** C5 (as the code has it).  The example election: round 1 scores 3, 2, 1
    and removes candidate 3; round 2 scores 4, 2 over {1, 2} and removes
    candidate 2; a third round over {1} scores 6 and removes candidate 1;
    the winners are [1] and the elimination order is [3; 2; 1]. *)
Theorem stv_example :
  (score (plurality_scores [1; 2; 3] example_ballots) 1 = Qc_of_Z 3 ∧
   score (plurality_scores [1; 2; 3] example_ballots) 2 = Qc_of_Z 2 ∧
   score (plurality_scores [1; 2; 3] example_ballots) 3 = Qc_of_Z 1) ∧
  round_losers [1; 2; 3] example_ballots = [3] ∧
  remaining (after_rounds 1 example_ballots [1; 2; 3]) = [1; 2] ∧
  (score (plurality_scores [1; 2] example_ballots) 1 = Qc_of_Z 4 ∧
   score (plurality_scores [1; 2] example_ballots) 2 = Qc_of_Z 2) ∧
  round_losers [1; 2] example_ballots = [2] ∧
  remaining (after_rounds 2 example_ballots [1; 2; 3]) = [1] ∧
  score (plurality_scores [1] example_ballots) 1 = Qc_of_Z 6 ∧
  round_losers [1] example_ballots = [1] ∧
  remaining (after_rounds 3 example_ballots [1; 2; 3]) = [] ∧
  stv [1; 2; 3] example_ballots = Some (Some [1], [3; 2; 1]).
Proof.
  repeat split; try qc_eval; by vm_compute.
Qed.

(** C5 as stated fails: the elimination order returned for the example is
    not the two groups [[3]; [2]]; the winner's own removal is recorded
    too. *)
Lemma stv_example_order_not_two_groups :
  ¬ ∃ order,
      stv [1; 2; 3] example_ballots = Some (Some [1], order) ∧
      order_entries order = [[3]; [2]].
Proof.
  intros (order & Hrun & Hentries).
  vm_compute in Hrun. injection Hrun as <-. by vm_compute in Hentries.
Qed.

(** C6 (what the code does).  With no candidate the loop body never runs:
    the elimination order is empty and the winners are [None], the initial
    value of [last_losers], not the empty list. *)
Theorem stv_no_candidates (ballots : list (Z * list (list Z))) :
  stv [] ballots = Some (None, []) ∧
  stv [] ballots ≠ Some (Some [], []).
Proof. by split. Qed.

(** ** The score table *)

Section ScoreFacts.
Implicit Types (rem members : list Z) (scores : gmap Z Qc) (sh : Qc).
Local Open Scope Qc_scope.



Lemma zero_scores_score l scores c :
  score scores c = 0 →
  score (foldl (λ scores c, <[c := 0]> scores) scores l) c = 0.
Proof.
  revert scores. induction l as [|x l IH]; intros scores Hc; simpl; [done|].
  apply IH. unfold score in *. rewrite lookup_insert.
  by case_decide.
Qed.









Lemma group_rem_nil rem group :
  group_rem rem group = [] ↔ ¬ Exists (λ c, c ∈ rem) group.
Proof.
  unfold group_rem. rewrite Exists_exists. split.
  - intros Hnil (c & Hc & Hrem).
    by eapply (filter_nil_not_elem_of _ _ c); [exact Hnil| |].
  - intros Hno. destruct (filter _ group) as [|c l] eqn:Hf; [done|].
    exfalso. apply Hno. exists c.
    assert (c ∈ filter (λ c, c ∈ rem) group) as Hc by (rewrite Hf; left).
    apply list_elem_of_filter in Hc. tauto.
Qed.

Lemma credit_ballot_cons rem weight group later scores :
  credit_ballot rem weight (group :: later) scores =
  match group_rem rem group with
  | [] => credit_ballot rem weight later scores
  | members => add_share (share weight members) members scores
  end.
Proof. done. Qed.


End ScoreFacts.



(** ** Ballot substitution and strategic rankings *)

Section ManipulationFacts.
Implicit Types (ballots : list (Z * list (list Z))) (flat l : list Z).

Lemma withdraw_past idx i k ballots :
  (i < idx)%nat → withdraw idx i k ballots = ballots.
Proof.
  revert idx. induction ballots as [|[w r] later IH]; intros idx Hlt; [done|].
  simpl. rewrite decide_False by lia. rewrite IH by lia. done.
Qed.

(** The entry at [type_index] loses [k] voters, or goes when none would be
    left; the entries before and after it stay as they are. *)
Lemma withdraw_lookup idx i k ballots w r :
  ballots !! i = Some (w, r) →
  withdraw idx (idx + i) k ballots =
  take i ballots
    ++ (if decide (w - k > 0) then [(w - k, r)] else [])
    ++ drop (S i) ballots.
Proof.
  revert idx i. induction ballots as [|[w0 r0] later IH]; intros idx i Hi.
  { done. }
  destruct i as [|i]; simpl in Hi.
  - injection Hi as -> ->. simpl.
    rewrite decide_True by lia. rewrite withdraw_past by lia.
    by rewrite drop_0.
  - simpl. rewrite decide_False by lia.
    replace (idx + S i)%nat with (S idx + i)%nat by lia.
    by rewrite (IH (S idx) i Hi).
Qed.

Lemma apply_manipulation_unfold ballots i k sb w r :
  ballots !! i = Some (w, r) →
  apply_manipulation ballots i k sb =
  take i ballots
    ++ (if decide (w - k > 0) then [(w - k, r)] else [])
    ++ drop (S i) ballots ++ [(k, sb)].
Proof.
  intros Hi. unfold apply_manipulation.
  pose proof (withdraw_lookup 0 i k ballots w r Hi) as Hw.
  change (0 + i)%nat with i in Hw. rewrite Hw.
  by rewrite <-!app_assoc.
Qed.

Lemma total_weight_app ballots ballots' :
  total_weight (ballots ++ ballots') =
  total_weight ballots + total_weight ballots'.
Proof.
  induction ballots as [|b ballots IH]; simpl; [done|].
  unfold total_weight in *. simpl. rewrite IH. lia.
Qed.

Lemma foldl_append_new flat l :
  NoDup l →
  foldl append_new flat l = flat ++ filter (λ c, c ∉ flat) l.
Proof.
  intros Hnd. revert flat.
  induction Hnd as [|c l Hc Hnd IH]; intros flat; simpl.
  { by rewrite app_nil_r. }
  rewrite IH. unfold append_new. rewrite filter_cons.
  destruct (decide (c ∈ flat)) as [Hin|Hout].
  - by rewrite decide_False by tauto.
  - rewrite decide_True by done. rewrite <-app_assoc. simpl.
    do 2 f_equal. apply filter_ext_elem.
    intros x Hx. rewrite not_elem_of_app, list_elem_of_singleton.
    split; [tauto|]. intros Hxf. split; [done|]. by intros ->.
Qed.

(** Collecting group by group is collecting along the flattened ranking. *)
Lemma foldl_append_new_groups flat (rk : list (list Z)) :
  foldl (λ flat group, foldl append_new flat group) flat rk =
  foldl append_new flat (concat rk).
Proof.
  revert flat. induction rk as [|group rk IH]; intros flat; simpl; [done|].
  by rewrite IH, foldl_app.
Qed.

Lemma remove_first_NoDup x l :
  NoDup l → remove_first x l = filter (λ c, c ≠ x) l.
Proof.
  induction 1 as [|y l Hy Hnd IH]; simpl; [done|].
  rewrite filter_cons. destruct (decide (y = x)) as [->|Hne].
  - rewrite decide_False by tauto. symmetry. apply filter_all.
    intros c Hc ->. done.
  - rewrite decide_True by done. by rewrite IH.
Qed.

End ManipulationFacts.

(** C7.  For a ranking without repeated candidates and a duplicate-free
    candidate list, with the target different from the incumbent winner,
    [build_strategic_ballot_from_ranking] returns singleton groups: the
    target, then the flattened ranking completed by the unranked candidates
    in candidate-list order with target and incumbent taken out, then the
    incumbent.  On ranking [[2]; [1; 3]], target 3, incumbent 2 and
    candidates 1..4 the result is [[3]; [1]; [4]; [2]]. *)
Theorem build_strategic_ballot_spec :
  (∀ (rk : list (list Z)) (target winner : Z) (all_candidates : list Z),
     NoDup (concat rk) → NoDup all_candidates → target ≠ winner →
     build_strategic_ballot_from_ranking rk target winner all_candidates =
     spec_strategic_ranking rk target winner all_candidates) ∧
  build_strategic_ballot_from_ranking [[2]; [1; 3]] 3 2 [1; 2; 3; 4] =
  [[3]; [1]; [4]; [2]].
Proof.
  split; [|done].
  intros rk target winner all_candidates Hrk Hall Hne.
  unfold build_strategic_ballot_from_ranking, spec_strategic_ranking.
  rewrite foldl_append_new_groups, (foldl_append_new [] (concat rk) Hrk).
  rewrite app_nil_l.
  rewrite (filter_all (λ c, c ∉ [])) by (intros c _; apply not_elem_of_nil).
  rewrite (foldl_append_new _ _ Hall).
  set (completed := concat rk ++ filter (λ c, c ∉ concat rk) all_candidates).
  assert (NoDup completed) as Hnd.
  { apply NoDup_app. split; [done|]. split; [|by apply NoDup_filter].
    intros c Hc Hc'. apply list_elem_of_filter in Hc'. tauto. }
  rewrite (remove_first_NoDup target completed Hnd).
  simpl remove_first. rewrite decide_False by done.
  rewrite remove_first_NoDup by (by apply NoDup_filter).
  rewrite list_filter_filter. simpl. do 3 f_equal.
  apply list_filter_iff. tauto.
Qed.

Lemma build_strategic_ballot_spec_witness :
  (NoDup (concat [[2]; [1; 3]]) ∧ NoDup [1; 2; 3; 4] ∧ (3:Z) ≠ 2) ∧
  build_strategic_ballot_from_ranking [[2]; [1; 3]] 3 2 [1; 2; 3; 4] =
  spec_strategic_ranking [[2]; [1; 3]] 3 2 [1; 2; 3; 4].
Proof.
  assert (NoDup (concat [[2]; [1; 3]])) as H1 by compute_done.
  assert (NoDup [1; 2; 3; 4]) as H2 by compute_done.
  assert ((3:Z) ≠ 2) as H3 by lia.
  split; [by repeat split|].
  exact (proj1 build_strategic_ballot_spec [[2]; [1; 3]] 3 2 [1; 2; 3; 4]
           H1 H2 H3).
Defined.

(** C9.  [apply_manipulation] keeps the ballot types before and after
    [type_index] as they are and in order, replaces the type at
    [type_index] by the same ranking with weight [w - k] when that is
    positive and drops it otherwise, and appends one new type of weight [k]
    with the strategic ranking. *)
Theorem apply_manipulation_frame (ballots : list (Z * list (list Z)))
    (type_index : nat) (k : Z) (strategic : list (list Z))
    (w : Z) (r : list (list Z)) :
  ballots !! type_index = Some (w, r) →
  apply_manipulation ballots type_index k strategic =
  take type_index ballots
    ++ (if decide (w - k > 0) then [(w - k, r)] else [])
    ++ drop (S type_index) ballots
    ++ [(k, strategic)].
Proof. apply apply_manipulation_unfold. Qed.

Lemma apply_manipulation_frame_witness :
  example_ballots !! 1%nat = Some (2, [[2]; [1]; [3]]) ∧
  apply_manipulation example_ballots 1 2 [[3]; [2]; [1]] =
  [(3, [[1]; [2]; [3]]); (1, [[3]; [1]; [2]]); (2, [[3]; [2]; [1]])].
Proof.
  split; [reflexivity|].
  exact (apply_manipulation_frame example_ballots 1 2 [[3]; [2]; [1]]
           2 [[2]; [1]; [3]] eq_refl).
Defined.

(** C10.  Moving [k] voters, with 1 <= k <= the weight of the type, keeps
    every weight positive and leaves the size of the electorate
    unchanged. *)
Theorem apply_manipulation_electorate (ballots : list (Z * list (list Z)))
    (type_index : nat) (k : Z) (strategic : list (list Z))
    (w : Z) (r : list (list Z)) :
  Forall (λ b, 0 < b.1) ballots →
  ballots !! type_index = Some (w, r) →
  1 ≤ k ≤ w →
  Forall (λ b, 0 < b.1) (apply_manipulation ballots type_index k strategic) ∧
  total_weight (apply_manipulation ballots type_index k strategic) =
  total_weight ballots.
Proof.
  intros Hpos Hi Hk.
  rewrite (apply_manipulation_unfold _ _ _ _ _ _ Hi).
  rewrite <-(take_drop_middle ballots type_index (w, r) Hi) in Hpos.
  rewrite <-(take_drop_middle ballots type_index (w, r) Hi) at 5.
  apply Forall_app in Hpos as [Hbefore Hafter].
  apply Forall_cons in Hafter as [Hw Hafter].
  split.
  - rewrite !Forall_app. split; [done|]. split; [|split; [done|]].
    + case_decide; [|done]. apply Forall_singleton. simpl. lia.
    + apply Forall_singleton. simpl. lia.
  - rewrite !total_weight_app.
    change (total_weight ((w, r) :: drop (S type_index) ballots))
      with (w + total_weight (drop (S type_index) ballots)).
    case_decide; unfold total_weight; simpl; lia.
Qed.

Lemma apply_manipulation_electorate_witness :
  (Forall (λ b : Z * list (list Z), 0 < b.1) example_ballots ∧
   example_ballots !! 1%nat = Some (2, [[2]; [1]; [3]]) ∧ 1 ≤ 2 ≤ 2) ∧
  total_weight (apply_manipulation example_ballots 1 2 [[3]; [2]; [1]]) = 6.
Proof.
  assert (Forall (λ b : Z * list (list Z), 0 < b.1) example_ballots) as H1.
  { repeat constructor. }
  assert (1 ≤ 2 ≤ 2) as H3 by lia.
  split; [by repeat split|].
  exact (proj2 (apply_manipulation_electorate example_ballots 1 2
                  [[3]; [2]; [1]] 2 [[2]; [1]; [3]] H1 eq_refl H3)).
Defined.

(** ** The coalition search *)

Section SearchFacts.
Variables (candidates : list Z) (ballots : list (Z * list (list Z))).
Variable (winner : Z).
Implicit Types (best : option manipulation) (k : Z) (idx : nat).

Lemma bind_Returned {A B} (o : outcome A) (f : A → outcome B) (b : B) :
  bind o f = Returned b → ∃ a, o = Returned a ∧ f a = Returned b.
Proof. destruct o as [a| |]; simpl; [eauto|done|done]. Qed.

Lemma stv_winners_Returned cands bs ws order :
  stv_winners cands bs = Returned (ws, order) ↔
  stv cands bs = Some (Some ws, order).
Proof.
  unfold stv_winners.
  destruct (stv cands bs) as [[[ws'|] order']|]; split; intros H;
    by simplify_eq.
Qed.

Lemma bounded_mono best k k' : bounded best k → k ≤ k' → bounded best k'.
Proof. intros (b & -> & Hb) Hk. exists b. split; [done|lia]. Qed.

Lemma py_range_elem lo hi k : k ∈ py_range lo hi ↔ lo ≤ k < hi.
Proof.
  unfold py_range. rewrite list_elem_of_fmap. split.
  - intros (i & -> & Hi%elem_of_seq). lia.
  - intros Hk. exists (Z.to_nat (k - lo)). split; [lia|].
    apply elem_of_seq. lia.
Qed.

Lemma py_range_sorted lo hi : StronglySorted Z.le (py_range lo hi).
Proof.
  unfold py_range. generalize (Z.to_nat (hi - lo)) as n. intros n.
  generalize 0%nat as start. induction n as [|n IH]; intros start; simpl.
  { constructor. }
  constructor; [apply IH|].
  apply Forall_forall. intros k (i & -> & Hi%elem_of_seq)%list_elem_of_fmap.
  lia.
Qed.

(** The loop over coalition sizes stops at the first size that works and
    records it when it beats the best so far. *)
Lemma try_sizes_spec tgt idx rk strategic sizes best best' :
  StronglySorted Z.le sizes →
  try_sizes candidates ballots winner tgt idx rk strategic sizes best
    = Returned best' →
  (∀ k, bounded best k → bounded best' k) ∧
  (∀ k order, k ∈ sizes →
     stv candidates (apply_manipulation ballots idx k strategic)
       = Some (Some [tgt], order) →
     bounded best' k) ∧
  (best' = best ∨
   ∃ k order, k ∈ sizes ∧
     stv candidates (apply_manipulation ballots idx k strategic)
       = Some (Some [tgt], order) ∧
     best' = Some {| orig_winner := winner; coalition_size := k;
                     target := tgt; type_index := idx;
                     true_ranking := rk; strategic_ballot := strategic;
                     new_elim_order := order |}).
Proof.
  intros Hsorted. revert best best'.
  induction Hsorted as [|k larger Hsorted IH Hle]; intros best best' Hrun.
  { simpl in Hrun. injection Hrun as <-.
    split; [done|]. split; [|by left].
    intros k order Hk. by apply not_elem_of_nil in Hk. }
  simpl in Hrun. apply bind_Returned in Hrun as ([ws order] & Hstv & Hrun).
  apply stv_winners_Returned in Hstv. simpl in Hrun.
  rewrite Forall_forall in Hle.
  destruct (decide (ws = [tgt])) as [->|Hno].
  - rewrite bool_decide_eq_true_2 in Hrun by done. injection Hrun as <-.
    assert (bounded
              (if improves k best
               then Some {| orig_winner := winner; coalition_size := k;
                            target := tgt; type_index := idx;
                            true_ranking := rk; strategic_ballot := strategic;
                            new_elim_order := order |}
               else best) k) as Hk.
    { destruct best as [b|]; simpl.
      - case_bool_decide.
        + eexists. split; [done|]. simpl. lia.
        + exists b. split; [done|]. lia.
      - eexists. split; [done|]. simpl. lia. }
    split; [|split].
    + intros k0 (b & -> & Hb). simpl. case_bool_decide.
      * eexists. split; [done|]. simpl. lia.
      * exists b. split; [done|]. lia.
    + intros k' order' Hk' _. apply (bounded_mono _ k); [done|].
      apply elem_of_cons in Hk' as [->|Hk']; [lia|by apply Hle].
    + destruct (improves k best); [|by left].
      right. exists k, order. split; [left|done].
  - rewrite bool_decide_eq_false_2 in Hrun by done.
    destruct (IH _ _ Hrun) as (Hmono & Hall & Hshape).
    split; [done|]. split.
    + intros k' order' Hk' Hwin.
      apply elem_of_cons in Hk' as [->|Hk']; [|by eapply Hall].
      rewrite Hstv in Hwin. by simplify_eq.
    + destruct Hshape as [->|(k' & order' & Hk' & Hwin & ->)]; [by left|].
      right. exists k', order'. split; [by right|done].
Qed.

Local Abbreviation sound := (sound candidates ballots winner).
Local Abbreviation wins_with := (wins_with candidates ballots winner).

(** The loop over ballot types, started at index [idx] on the types that
    are left from there. *)
Lemma scan_types_spec tgt idx types best best' :
  (∀ j, types !! j = ballots !! (idx + j)%nat) →
  tgt ∈ candidates → tgt ≠ winner →
  scan_types candidates ballots winner tgt idx types best = Returned best' →
  sound best →
  sound best' ∧
  (∀ k, bounded best k → bounded best' k) ∧
  (∀ j w rk k order,
     types !! j = Some (w, rk) →
     prefers_over rk tgt winner = true →
     1 ≤ k ≤ w →
     wins_with tgt (idx + j) rk k order →
     bounded best' k).
Proof.
  intros Htypes Htgt Hne. revert idx best Htypes.
  induction types as [|[weight rk] later IH]; intros idx best Htypes Hrun Hsound.
  { simpl in Hrun. injection Hrun as <-. split; [done|]. split; [done|].
    intros j w rk k order Hj. by rewrite lookup_nil in Hj. }
  assert (∀ j, later !! j = ballots !! (S idx + j)%nat) as Hlater.
  { intros j. pose proof (Htypes (S j)) as Hj. simpl in Hj.
    rewrite Hj. f_equal. lia. }
  assert (ballots !! idx = Some (weight, rk)) as Hidx.
  { pose proof (Htypes 0%nat) as Hj. simpl in Hj.
    rewrite Nat.add_0_r in Hj. done. }
  simpl in Hrun. destruct (prefers_over rk tgt winner) eqn:Hpref.
  - apply bind_Returned in Hrun as (best1 & Hsizes & Hrun).
    destruct (try_sizes_spec _ _ _ _ _ _ _ (py_range_sorted _ _) Hsizes)
      as (Hmono1 & Hall1 & Hshape1).
    assert (sound best1) as Hsound1.
    { destruct Hshape1 as [->|(k & order & Hk & Hwin & ->)]; [done|].
      intros b [= <-]. simpl. apply py_range_elem in Hk.
      repeat split; try done. exists weight. split; [done|lia]. }
    destruct (IH (S idx) best1 Hlater Hrun Hsound1) as (Hs & Hmono & Hall).
    split; [done|]. split; [auto|].
    intros [|j] w rk' k order Hj Hp Hk Hwin.
    + simpl in Hj. injection Hj as -> ->.
      rewrite Nat.add_0_r in Hwin. apply Hmono.
      eapply Hall1; [|exact Hwin]. apply py_range_elem. lia.
    + simpl in Hj. eapply Hall; [exact Hj|done|done|].
      by replace (S idx + j)%nat with (idx + S j)%nat by lia.
  - destruct (IH (S idx) best Hlater Hrun Hsound) as (Hs & Hmono & Hall).
    split; [done|]. split; [done|].
    intros [|j] w rk' k order Hj Hp Hk Hwin.
    + simpl in Hj. injection Hj as -> ->. congruence.
    + simpl in Hj. eapply Hall; [exact Hj|done|done|].
      by replace (S idx + j)%nat with (idx + S j)%nat by lia.
Qed.

(** The loop over targets. *)
Lemma scan_targets_spec targets best best' :
  (∀ t, t ∈ targets → t ∈ candidates) →
  scan_targets candidates ballots winner targets best = Returned best' →
  sound best →
  sound best' ∧
  (∀ k, bounded best k → bounded best' k) ∧
  (∀ t j w rk k order,
     t ∈ targets → t ≠ winner →
     ballots !! j = Some (w, rk) →
     prefers_over rk t winner = true →
     1 ≤ k ≤ w →
     wins_with t j rk k order →
     bounded best' k).
Proof.
  revert best. induction targets as [|tgt later IH]; intros best Hsub Hrun Hsound.
  { simpl in Hrun. injection Hrun as <-. split; [done|]. split; [done|].
    intros t j w rk k order Ht. by apply not_elem_of_nil in Ht. }
  assert (∀ t, t ∈ later → t ∈ candidates) as Hsub'.
  { intros t Ht. apply Hsub. by right. }
  simpl in Hrun. destruct (decide (tgt = winner)) as [->|Hne].
  - destruct (IH best Hsub' Hrun Hsound) as (Hs & Hmono & Hall).
    split; [done|]. split; [done|].
    intros t j w rk k order Ht Htw. apply elem_of_cons in Ht as [->|Ht];
      [done|]. by apply Hall.
  - apply bind_Returned in Hrun as (best1 & Htypes & Hrun).
    destruct (scan_types_spec tgt 0 ballots best best1) as (Hs1 & Hmono1 & Hall1);
      [done|apply Hsub; left|done|done|done|].
    destruct (IH best1 Hsub' Hrun Hs1) as (Hs & Hmono & Hall).
    split; [done|]. split; [auto|].
    intros t j w rk k order Ht Htw Hj Hp Hk Hwin.
    apply elem_of_cons in Ht as [->|Ht]; [|by eapply Hall].
    apply Hmono. by eapply (Hall1 j).
Qed.
End SearchFacts.

(** C1.  When the unmodified election has the single winner [w0] and the
    search returns a result, (1) the coalition it describes works: the type
    at its index has its true ranking and prefers the target to [w0], the
    size is between 1 and the type's weight, and moving that many voters to
    the strategic ranking built for the target makes the target the only
    winner; and (2) no candidate other than [w0], no ballot type preferring
    it to [w0] and no smaller size between 1 and that type's weight makes
    that candidate the only winner. *)
Theorem find_smallest_manipulating_coalition_minimal
    (candidates : list Z) (ballots : list (Z * list (list Z)))
    (w0 : Z) (order0 : list Z) (result : manipulation) :
  stv candidates ballots = Some (Some [w0], order0) →
  find_smallest_manipulating_coalition candidates ballots
    = Returned (Some result) →
  (orig_winner result = w0 ∧
   target result ∈ candidates ∧
   target result ≠ w0 ∧
   strategic_ballot result =
     build_strategic_ballot_from_ranking (true_ranking result) (target result)
       w0 candidates ∧
   (∃ w, ballots !! type_index result = Some (w, true_ranking result) ∧
         1 ≤ coalition_size result ≤ w) ∧
   prefers_over (true_ranking result) (target result) w0 = true ∧
   stv candidates
       (apply_manipulation ballots (type_index result) (coalition_size result)
          (build_strategic_ballot_from_ranking (true_ranking result)
             (target result) w0 candidates))
   = Some (Some [target result], new_elim_order result)) ∧
  (∀ (t' : Z) (i' : nat) (w' : Z) (r' : list (list Z)) (k' : Z)
     (order' : list Z),
     t' ∈ candidates → t' ≠ w0 →
     ballots !! i' = Some (w', r') →
     prefers_over r' t' w0 = true →
     1 ≤ k' ≤ w' →
     k' < coalition_size result →
     stv candidates
         (apply_manipulation ballots i' k'
            (build_strategic_ballot_from_ranking r' t' w0 candidates))
     ≠ Some (Some [t'], order')).
Proof.
  intros Hstv Hfind. unfold find_smallest_manipulating_coalition in Hfind.
  apply (stv_winners_Returned candidates ballots) in Hstv.
  rewrite Hstv in Hfind. simpl in Hfind.
  destruct (scan_targets_spec candidates ballots w0 candidates None (Some result))
    as (Hsound & _ & Hall); [done|done|by intros b|].
  split; [by apply Hsound|].
  intros t' i' w' r' k' order' Ht Hne Hi Hp Hk Hlt Hwin.
  destruct (Hall t' i' w' r' k' order' Ht Hne Hi Hp Hk Hwin) as (b & [= <-] & Hb).
  lia.
Qed.

Lemma find_smallest_manipulating_coalition_minimal_witness :
  let result :=
    {| orig_winner := 1; coalition_size := 2; target := 2; type_index := 2;
       true_ranking := [[3]; [2]; [1]];
       strategic_ballot := [[2]; [3]; [1]];
       new_elim_order := [3; 1; 2] |} in
  (stv [1; 2; 3] manipulable_ballots = Some (Some [1], [2; 3; 1]) ∧
   find_smallest_manipulating_coalition [1; 2; 3] manipulable_ballots
     = Returned (Some result)) ∧
  stv [1; 2; 3]
      (apply_manipulation manipulable_ballots 2 2 [[2]; [3]; [1]])
    = Some (Some [2], [3; 1; 2]) ∧
  ∀ order',
    stv [1; 2; 3]
        (apply_manipulation manipulable_ballots 2 1
           (build_strategic_ballot_from_ranking [[3]; [2]; [1]] 2 1 [1; 2; 3]))
    ≠ Some (Some [2], order').
Proof.
  intros result.
  assert (stv [1; 2; 3] manipulable_ballots = Some (Some [1], [2; 3; 1]))
    as H1 by (vm_compute; reflexivity).
  assert (find_smallest_manipulating_coalition [1; 2; 3] manipulable_ballots
          = Returned (Some result)) as H2 by (vm_compute; reflexivity).
  pose proof (find_smallest_manipulating_coalition_minimal
                [1; 2; 3] manipulable_ballots 1 [2; 3; 1] result H1 H2)
    as [Hworks Hminimal].
  split; [by split|]. split.
  - apply Hworks.
  - intros order'.
    apply (Hminimal 2 2%nat 5 [[3]; [2]; [1]] 1 order').
    + apply list_elem_of_In. simpl. tauto.
    + lia.
    + reflexivity.
    + vm_compute; reflexivity.
    + lia.
    + simpl. lia.
Defined.

(** C8 (what the code does).  With an empty candidate list [stv] returns
    [None] for the winners, and the search fails on [len(orig_winners)]
    instead of returning the sentinel. *)
Theorem find_smallest_manipulating_coalition_no_candidates
    (ballots : list (Z * list (list Z))) :
  stv [] ballots = Some (None, []) ∧
  find_smallest_manipulating_coalition [] ballots = Raised TypeError.
Proof. by split. Qed.


(** ** More about the score table and the rounds *)

Section ScoreTable.
Implicit Types (rem members : list Z) (scores : gmap Z Qc) (sh : Qc).
Local Open Scope Qc_scope.

Lemma zero_scores_keys l scores c :
  is_Some (foldl (λ scores c, <[c := 0]> scores) scores l !! c) ↔
  c ∈ l ∨ is_Some (scores !! c).
Proof.
  revert scores. induction l as [|x l IH]; intros scores; simpl.
  - rewrite elem_of_nil. tauto.
  - rewrite IH, lookup_insert_is_Some, elem_of_cons.
    destruct (decide (x = c)); intuition congruence.
Qed.

Lemma add_share_keys sh members scores c :
  is_Some (add_share sh members scores !! c) ↔ is_Some (scores !! c).
Proof.
  revert scores. unfold add_share.
  induction members as [|x members IH]; intros scores; simpl; [done|].
  by rewrite IH, lookup_alter_is_Some.
Qed.

Lemma credit_ballot_keys rem weight groups scores c :
  is_Some (credit_ballot rem weight groups scores !! c) ↔ is_Some (scores !! c).
Proof.
  induction groups as [|group later IH]; [done|].
  rewrite credit_ballot_cons.
  destruct (group_rem rem group); [done|]. apply add_share_keys.
Qed.

Lemma add_share_nonneg sh members scores :
  0 ≤ sh → (∀ c, 0 ≤ score scores c) →
  ∀ c, 0 ≤ score (add_share sh members scores) c.
Proof.
  intros Hsh. revert scores. unfold add_share.
  induction members as [|x members IH]; intros scores Hpos; simpl; [done|].
  apply IH. intros c. unfold score. rewrite lookup_alter.
  case_decide as Hx; [|apply Hpos]. subst x.
  specialize (Hpos c). unfold score in Hpos.
  destruct (scores !! c) as [s|]; simpl in *; [|done].
  by apply Qcplus_nonneg_nonneg.
Qed.

Lemma share_nonneg weight members : (0 ≤ weight)%Z → 0 ≤ share weight members.
Proof.
  intros Hw. unfold share, Qcdiv.
  destruct members as [|c members].
  { simpl. change (Z.of_nat 0) with 0%Z. rewrite Z2Qc_inj_0.
    replace (/ 0) with 0 by (by apply Qc_is_canon).
    by rewrite Qcmult_0_r. }
  rewrite <-(Qcmult_0_l (/ Qc_of_Z (Z.of_nat (length (c :: members))))).
  apply Qcmult_le_mono_nonneg_r.
  - apply Qclt_le_weak, Qcinv_pos. rewrite <-Z2Qc_inj_0, <-Z2Qc_inj_lt.
    simpl. lia.
  - by rewrite <-Z2Qc_inj_0, <-Z2Qc_inj_le.
Qed.

Lemma credit_ballot_nonneg rem weight groups scores :
  (0 ≤ weight)%Z → (∀ c, 0 ≤ score scores c) →
  ∀ c, 0 ≤ score (credit_ballot rem weight groups scores) c.
Proof.
  intros Hw Hpos. induction groups as [|group later IH]; [done|].
  rewrite credit_ballot_cons.
  destruct (group_rem rem group); [done|].
  by apply add_share_nonneg; [apply share_nonneg|].
Qed.

Lemma foldl_py_min_le scores m others :
  foldl (λ m c', py_min m (score scores c')) m others ≤ m ∧
  ∀ c, c ∈ others →
       foldl (λ m c', py_min m (score scores c')) m others ≤ score scores c.
Proof.
  revert m. induction others as [|x others IH]; intros m; simpl.
  { split; [done|]. intros c Hc. by apply elem_of_nil in Hc. }
  destruct (IH (py_min m (score scores x))) as [Hm Hall].
  assert (py_min m (score scores x) ≤ m ∧
          py_min m (score scores x) ≤ score scores x) as [H1 H2].
  { unfold py_min. case_decide as Hlt.
    - split; [by apply Qclt_le_weak|done].
    - split; [done|]. by apply Qcnot_lt_le. }
  split; [by etrans|].
  intros c [->|Hc]%elem_of_cons; [by etrans|by apply Hall].
Qed.
End ScoreTable.

(** X1.  The table that [plurality_scores] returns has an entry for exactly
    the remaining candidates: reading [scores[c]] for a remaining candidate
    never misses, and no other candidate gets a score. *)
Theorem plurality_scores_keys (rem : list Z)
    (ballots : list (Z * list (list Z))) (c : Z) :
  is_Some (plurality_scores rem ballots !! c) ↔ c ∈ rem.
Proof.
  unfold plurality_scores.
  assert (∀ scores,
    is_Some (foldl (λ scores b, credit_ballot rem b.1 b.2 scores) scores ballots
             !! c) ↔ is_Some (scores !! c)) as Hfold.
  { induction ballots as [|b ballots IH]; intros scores; simpl; [done|].
    by rewrite IH, credit_ballot_keys. }
  rewrite Hfold. unfold zero_scores. rewrite zero_scores_keys.
  rewrite lookup_empty. split; [intros [?|[? [=]]]; done|by left].
Qed.

(** X2.  When no ballot has a negative weight, no score is negative. *)
Theorem plurality_scores_nonneg (rem : list Z)
    (ballots : list (Z * list (list Z))) (c : Z) :
  Forall (λ b, 0 ≤ b.1) ballots →
  (0 ≤ score (plurality_scores rem ballots) c)%Qc.
Proof.
  intros Hw. unfold plurality_scores.
  assert (∀ c, (0 ≤ score (zero_scores rem) c)%Qc) as Hzero.
  { intros c'. unfold zero_scores. by rewrite zero_scores_score. }
  revert Hzero. generalize (zero_scores rem) as scores. revert c.
  induction Hw as [|b ballots Hb Hw IH]; intros c scores Hpos; simpl; [done|].
  apply IH. by apply credit_ballot_nonneg.
Qed.

Lemma plurality_scores_nonneg_witness :
  Forall (λ b : Z * list (list Z), 0 ≤ b.1) example_ballots ∧
  Qcle 0%Qc (score (plurality_scores [1; 2; 3] example_ballots) 2).
Proof.
  assert (Forall (λ b : Z * list (list Z), 0 ≤ b.1) example_ballots) as Hw.
  { repeat constructor; simpl; lia. }
  split; [exact Hw|].
  exact (plurality_scores_nonneg [1; 2; 3] example_ballots 2 Hw).
Defined.

(** X3.  [min_score] is the smallest score among the remaining candidates:
    it is at most the score of each of them and it is the score of one of
    them. *)
Theorem min_score_least (scores : gmap Z Qc) (rem : list Z) (c : Z) :
  c ∈ rem →
  (min_score scores rem ≤ score scores c)%Qc ∧
  ∃ c', c' ∈ rem ∧ min_score scores rem = score scores c'.
Proof.
  intros Hc. split.
  - destruct rem as [|x others]; [by apply elem_of_nil in Hc|]. simpl.
    destruct (foldl_py_min_le scores (score scores x) others) as [Hx Hall].
    apply elem_of_cons in Hc as [->|Hc]; [done|by apply Hall].
  - apply min_score_attained. intros ->. by apply elem_of_nil in Hc.
Qed.

Lemma min_score_least_witness :
  (2:Z) ∈ [1; 2; 3] ∧
  Qcle (min_score (plurality_scores [1; 2; 3] example_ballots) [1; 2; 3])
       (score (plurality_scores [1; 2; 3] example_ballots) 2).
Proof.
  assert ((2:Z) ∈ [1; 2; 3]) as Hc by (apply list_elem_of_In; simpl; tauto).
  split; [exact Hc|].
  exact (proj1 (min_score_least _ [1; 2; 3] 2 Hc)).
Defined.

(** ** Edge cases of the tabulation *)

Section TabulationEdges.
Implicit Types (st : stv_state) (ballots : list (Z * list (list Z))).
Implicit Types (rem : list Z) (scores : gmap Z Qc).

Lemma credit_ballot_exhausted rem weight rk scores :
  ¬ non_exhausted rem rk → credit_ballot rem weight rk scores = scores.
Proof.
  unfold non_exhausted. induction rk as [|group later IH]; intros Hex; [done|].
  rewrite credit_ballot_cons.
  rewrite Exists_cons in Hex.
  assert (group_rem rem group = []) as -> by (apply group_rem_nil; tauto).
  apply IH. tauto.
Qed.

Lemma non_exhausted_mono rem rem' rk :
  (∀ c, c ∈ rem → c ∈ rem') → non_exhausted rem rk → non_exhausted rem' rk.
Proof.
  intros Hsub. unfold non_exhausted. rewrite !Exists_exists.
  intros (group & Hg & Hc). exists group. split; [done|].
  rewrite Exists_exists in Hc |- *. destruct Hc as (c & Hc & Hrem). eauto.
Qed.

Lemma plurality_scores_skip rem before after weight rk :
  ¬ non_exhausted rem rk →
  plurality_scores rem (before ++ (weight, rk) :: after) =
  plurality_scores rem (before ++ after).
Proof.
  intros Hex. unfold plurality_scores. rewrite !foldl_app. simpl.
  by rewrite credit_ballot_exhausted.
Qed.

Lemma stv_round_remaining_subseteq ballots st c :
  c ∈ remaining (stv_round ballots st) → c ∈ remaining st.
Proof.
  rewrite stv_round_unfold. simpl. rewrite list_elem_of_filter. tauto.
Qed.

Lemma stv_loop_skip fuel candidates before after weight rk st :
  ¬ non_exhausted candidates rk →
  (∀ c, c ∈ remaining st → c ∈ candidates) →
  stv_loop fuel (before ++ (weight, rk) :: after) st =
  stv_loop fuel (before ++ after) st.
Proof.
  intros Hex. revert st. induction fuel as [|fuel IH]; intros st Hsub; [done|].
  simpl. destruct (remaining st) as [|x others] eqn:Hrem; [done|].
  assert (stv_round (before ++ (weight, rk) :: after) st =
          stv_round (before ++ after) st) as ->.
  { unfold stv_round, round_losers.
    rewrite plurality_scores_skip; [done|].
    intros Hne. apply Hex. eapply non_exhausted_mono; [|exact Hne].
    by rewrite Hrem. }
  apply IH. intros c Hc. apply Hsub. rewrite <-Hrem.
  by apply (stv_round_remaining_subseteq _ _ _ Hc).
Qed.

End TabulationEdges.

(** X4.  A ballot type whose ranking names no candidate of the election is
    ignored: with or without it, [stv] returns the same winners and the same
    elimination order, whatever its weight. *)
Theorem stv_ignores_exhausted_ballot (candidates : list Z)
    (before after : list (Z * list (list Z))) (weight : Z)
    (rk : list (list Z)) :
  ¬ non_exhausted candidates rk →
  stv candidates (before ++ (weight, rk) :: after) =
  stv candidates (before ++ after).
Proof.
  intros Hex. unfold stv, stv_fuel.
  rewrite (stv_loop_skip _ candidates); [done|done|].
  intros c. simpl. by rewrite elem_of_remove_dups.
Qed.

Lemma stv_ignores_exhausted_ballot_witness :
  ¬ non_exhausted [1; 2; 3] [[7]; [8; 9]] ∧
  stv [1; 2; 3] ((4, [[7]; [8; 9]]) :: example_ballots) =
  stv [1; 2; 3] example_ballots.
Proof.
  assert (¬ non_exhausted [1; 2; 3] [[7]; [8; 9]]) as Hex by compute_done.
  split; [exact Hex|].
  exact (stv_ignores_exhausted_ballot [1; 2; 3] [] example_ballots 4
           [[7]; [8; 9]] Hex).
Defined.

Section Binary64Edges.
Import Binary64.
Implicit Types (st : stv_state) (ballots : list (Z * list (list Z))).
Implicit Types (rem losers : list Z).
Implicit Types (scores : gmap Z SpecFloat.spec_float).

Lemma float_credit_ballot_exhausted rem weight rk scores :
  ¬ non_exhausted rem rk → credit_ballot rem weight rk scores = Value scores.
Proof.
  unfold non_exhausted. induction rk as [|group later IH]; intros Hex; [done|].
  simpl. rewrite (proj2 (group_rem_nil rem group)).
  - apply IH. intros H. apply Hex. by apply Exists_cons_tl.
  - intros H. apply Hex. by apply Exists_cons_hd.
Qed.

Lemma float_zero_scores_score l scores c :
  (∀ v, scores !! c = Some v → v = zero) →
  score (foldl (λ scores c, <[c := zero]> scores) scores l) c = zero.
Proof.
  revert scores. induction l as [|a l IH]; intros scores Hsc; simpl.
  - unfold score. destruct (scores !! c) as [v|] eqn:Hv; [|done].
    simpl. by apply Hsc.
  - apply IH. intros v. destruct (decide (a = c)) as [->|Hne].
    + rewrite lookup_insert_eq. by intros [= <-].
    + rewrite lookup_insert_ne by done. apply Hsc.
Qed.

(** When every ballot is exhausted all scores are [0.0] and every remaining
    candidate is within the tolerance of the lowest. *)
Lemma float_round_losers_all_exhausted rem ballots :
  rem ≠ [] →
  Forall (λ b, ¬ non_exhausted rem b.2) ballots →
  round_losers rem ballots = Value rem.
Proof.
  intros Hrem Hex. unfold round_losers.
  assert (plurality_scores rem ballots = Value (zero_scores rem)) as ->.
  { unfold plurality_scores. generalize (zero_scores rem) as scores.
    induction Hex as [|b ballots Hb Hex IH]; intros scores; simpl; [done|].
    rewrite float_credit_ballot_exhausted by done. simpl. apply IH. }
  simpl. f_equal.
  assert (∀ c, score (zero_scores rem) c = zero) as Hzero.
  { intros c. unfold zero_scores. apply float_zero_scores_score.
    intros v. by rewrite lookup_empty. }
  apply filter_all. intros c Hc.
  destruct (float_min_score_attained (zero_scores rem) rem Hrem) as (c' & _ & ->).
  unfold is_loser. by rewrite !Hzero.
Qed.

End Binary64Edges.

(** X5.  When no ballot names a candidate of the election (in particular
    when there are no ballots), all candidates tie at 0.0: one round removes
    them all, and the winners and the elimination order are the candidate
    set in the order in which the set enumerates it. *)
Theorem stv_all_exhausted_tie (set_order : list Z → list Z)
    (candidates : list Z) (ballots : list (Z * list (list Z))) :
  Binary64.enumerates (set_order candidates) candidates →
  candidates ≠ [] →
  Forall (λ b, ¬ non_exhausted candidates b.2) ballots →
  Binary64.stv set_order candidates ballots =
  Binary64.Value (Some (set_order candidates), set_order candidates).
Proof.
  intros Henum Hne Hex.
  pose proof (enumerates_nonempty _ _ Henum Hne) as Hrem.
  assert (Binary64.round_losers (set_order candidates) ballots
          = Binary64.Value (set_order candidates)) as Hall.
  { apply float_round_losers_all_exhausted; [done|].
    eapply Forall_impl; [exact Hex|].
    intros b Hb Hact. apply Hb. eapply non_exhausted_mono; [|exact Hact].
    intros c. apply Henum. }
  unfold Binary64.stv, Binary64.stv_fuel.
  destruct candidates as [|c l]; [done|].
  change (length (c :: l)) with (S (length l)).
  cbn [Binary64.stv_loop].
  change (remaining (Binary64.stv_init set_order (c :: l)))
    with (set_order (c :: l)).
  destruct (set_order (c :: l)) as [|y ys] eqn:Hso; [done|].
  rewrite (float_stv_round_losers _ _ (y :: ys))
    by (simpl; by rewrite Hso).
  simpl remaining. rewrite Hso.
  assert (filter (λ x, x ∉ y :: ys) (y :: ys) = []) as ->.
  { destruct (filter _ _) as [|x xs] eqn:Hf; [done|].
    assert (x ∈ filter (λ x, x ∉ y :: ys) (y :: ys)) as Hx by (rewrite Hf; left).
    apply list_elem_of_filter in Hx. tauto. }
  simpl. by destruct (length l).
Qed.

Lemma stv_all_exhausted_tie_witness :
  (Binary64.enumerates (remove_dups [4; 5]) [4; 5] ∧
   [4; 5] ≠ ([] : list Z) ∧
   Forall (λ b : Z * list (list Z), ¬ non_exhausted [4; 5] b.2)
     example_ballots) ∧
  Binary64.stv remove_dups [4; 5] example_ballots
    = Binary64.Value (Some [4; 5], [4; 5]).
Proof.
  assert (Binary64.enumerates (remove_dups [4; 5]) [4; 5]) as Henum
    by apply remove_dups_enumerates.
  assert ([4; 5] ≠ ([] : list Z)) as Hne by discriminate.
  assert (Forall (λ b : Z * list (list Z), ¬ non_exhausted [4; 5] b.2)
            example_ballots) as Hex by compute_done.
  split; [split; [exact Henum|split; [exact Hne|exact Hex]]|].
  exact (stv_all_exhausted_tie remove_dups [4; 5] example_ballots
           Henum Hne Hex).
Defined.

(** X6.  A single candidate whose score is a finite float wins and is the
    whole elimination order. *)
Theorem stv_single_candidate (set_order : list Z → list Z) (c : Z)
    (ballots : list (Z * list (list Z))) :
  Binary64.enumerates (set_order [c]) [c] →
  Binary64.round_finite [c] ballots = true →
  Binary64.stv set_order [c] ballots = Binary64.Value (Some [c], [c]).
Proof.
  intros Henum Hfin.
  assert (set_order [c] = [c]) as Hso.
  { destruct Henum as [Hnd Hin].
    apply Permutation_singleton_r, NoDup_Permutation;
      [done|apply NoDup_singleton|].
    intros x. apply Hin. }
  destruct (round_finite_losers [c] ballots) as (losers & x & Hl & Hx);
    [done|done|].
  assert (losers = [c]) as ->.
  { pose proof Hl as (scores & _ & Heq)%float_round_losers_Value.
    rewrite Heq in Hx |- *.
    apply list_elem_of_filter in Hx as [Hx ->%list_elem_of_singleton].
    by rewrite filter_cons_True, filter_nil. }
  unfold Binary64.stv, Binary64.stv_fuel. cbn [length Binary64.stv_loop].
  change (remaining (Binary64.stv_init set_order [c])) with (set_order [c]).
  rewrite Hso.
  rewrite (float_stv_round_losers _ _ [c]) by (simpl; by rewrite Hso).
  simpl remaining. rewrite Hso.
  rewrite filter_cons_False, filter_nil by (intros Hc; apply Hc; left).
  done.
Qed.

Lemma stv_single_candidate_witness :
  (Binary64.enumerates (remove_dups [1]) [1] ∧
   Binary64.round_finite [1] example_ballots = true) ∧
  Binary64.stv remove_dups [1] example_ballots = Binary64.Value (Some [1], [1]).
Proof.
  assert (Binary64.enumerates (remove_dups [1]) [1]) as Henum
    by apply remove_dups_enumerates.
  assert (Binary64.round_finite [1] example_ballots = true) as Hfin
    by (vm_compute; reflexivity).
  split; [by split|].
  exact (stv_single_candidate remove_dups 1 example_ballots Henum Hfin).
Defined.

(** X7.  More than half of the first choices do not make a sole winner when
    the weights are beyond 2^53: candidate 2 is the first choice of
    2^53 + 1 voters and candidate 1 of 2^53, the share 2^53 + 1 rounds to
    the float 2^53, the two scores are equal, and both candidates are
    removed in the one round and returned as winners. *)
Theorem stv_majority_lost_in_rounding :
  first_choice_weight 2 Binary64.close_ballots = 2 ^ 53 + 1 ∧
  total_weight Binary64.close_ballots = 2 ^ 54 + 1 ∧
  Binary64.share (2 ^ 53 + 1) [2] = Binary64.share (2 ^ 53) [1] ∧
  (∃ scores,
     Binary64.plurality_scores [1; 2] Binary64.close_ballots
       = Binary64.Value scores ∧
     Binary64.score scores 1 = Binary64.score scores 2) ∧
  Binary64.stv remove_dups [1; 2] Binary64.close_ballots
    = Binary64.Value (Some [1; 2], [1; 2]).
Proof.
  split; [by vm_compute|]. split; [by vm_compute|]. split; [by vm_compute|].
  split; [|by vm_compute].
  eexists. split; [vm_compute; reflexivity|]. by vm_compute.
Qed.

Section Binary64Converse.
Import Binary64.
Implicit Types (st : stv_state) (ballots : list (Z * list (list Z))).

(** What the loop returns, it returns after finite rounds only. *)
Lemma float_stv_loop_Value_finite ballots fuel st final :
  stv_loop fuel ballots st = Value final → rounds_finite ballots st.
Proof.
  intros Hloop n st' Hrun. revert fuel Hloop.
  induction Hrun as [st|n st next st' Hrem Hround Hrun IH]; intros fuel Hloop Hne.
  - destruct fuel as [|fuel]; simpl in Hloop;
      destruct (remaining st) as [|c others] eqn:Hst; try done.
    destruct (stv_round ballots st) as [next| |] eqn:Hround; [|done..].
    simpl in Hloop.
    pose proof Hround as (losers & Hl & ->)%float_stv_round_Value.
    destruct losers as [|x losers].
    + rewrite float_stv_loop_stuck in Hloop; [done| |]; simpl;
        rewrite Hst, filter_not_elem_nil; [done|by rewrite <-Hst].
    + rewrite <-Hst. eapply (round_losers_finite _ _ _ x); [exact Hl|left].
  - destruct fuel as [|fuel]; simpl in Hloop;
      destruct (remaining st) as [|c others] eqn:Hst; try done.
    rewrite Hround in Hloop. simpl in Hloop. by apply (IH fuel).
Qed.

End Binary64Converse.

(** X21.  [stv] returns exactly when every round that the loop gets to
    computes its scores and has a finite lowest score; and a result that
    comes with some number of rounds comes with one round per candidate. *)
Theorem stv_returns_iff_rounds_finite (set_order : list Z → list Z)
    (candidates : list Z) (ballots : list (Z * list (list Z))) :
  Binary64.enumerates (set_order candidates) candidates →
  ((∃ result, Binary64.stv set_order candidates ballots
              = Binary64.Value result) ↔
   Binary64.rounds_finite ballots (Binary64.stv_init set_order candidates)) ∧
  (∀ fuel result,
     Binary64.stv_fuel set_order fuel candidates ballots
       = Binary64.Value result →
     Binary64.stv set_order candidates ballots = Binary64.Value result).
Proof.
  intros Henum.
  pose proof (enumerates_length _ _ Henum) as Hlen.
  assert (∀ fuel result,
     Binary64.stv_fuel set_order fuel candidates ballots
       = Binary64.Value result →
     Binary64.rounds_finite ballots (Binary64.stv_init set_order candidates))
    as Hfinite.
  { intros fuel result. unfold Binary64.stv_fuel.
    destruct (Binary64.stv_loop fuel ballots _) as [final| |] eqn:Hloop;
      [|done..].
    intros _. by eapply float_stv_loop_Value_finite. }
  split; [split|].
  - intros [result Hrun]. by eapply Hfinite.
  - intros Hfin.
    destruct (float_stv_loop_finite ballots (length candidates)
                (Binary64.stv_init set_order candidates) Hfin Hlen)
      as (n & final & _ & _ & _ & Hloop).
    eexists. unfold Binary64.stv, Binary64.stv_fuel. by rewrite Hloop.
  - intros fuel result Hrun.
    pose proof (Hfinite fuel result Hrun) as Hfin.
    destruct (float_stv_loop_finite ballots (length candidates)
                (Binary64.stv_init set_order candidates) Hfin Hlen)
      as (n & final & _ & _ & _ & Hloop).
    unfold Binary64.stv, Binary64.stv_fuel in Hrun |- *.
    destruct (decide (fuel ≤ length candidates)%nat) as [Hle|Hgt].
    + destruct (Binary64.stv_loop fuel ballots _) as [final'| |] eqn:Hloop';
        [|done..].
      by rewrite (float_stv_loop_more_fuel _ _ _ _ _ Hloop' Hle).
    + rewrite (float_stv_loop_more_fuel _ _ fuel _ _ Hloop) in Hrun by lia.
      by rewrite Hloop.
Qed.

Lemma stv_returns_iff_rounds_finite_witness :
  Binary64.enumerates (remove_dups [1; 2; 3]) [1; 2; 3] ∧
  Binary64.rounds_finite example_ballots
    (Binary64.stv_init remove_dups [1; 2; 3]) ∧
  ¬ Binary64.rounds_finite Binary64.heavy_ballots
      (Binary64.stv_init remove_dups [1]).
Proof.
  assert (Binary64.enumerates (remove_dups [1; 2; 3]) [1; 2; 3]) as Henum
    by apply remove_dups_enumerates.
  split; [exact Henum|]. split.
  - apply (stv_returns_iff_rounds_finite remove_dups [1; 2; 3] example_ballots
             Henum).
    eexists. vm_compute. reflexivity.
  - intros Hfin.
    apply (stv_returns_iff_rounds_finite remove_dups [1] Binary64.heavy_ballots
             (remove_dups_enumerates [1])) in Hfin as [result Hrun].
    vm_compute in Hrun. discriminate Hrun.
Defined.

(** ** Positions and preferences *)

Section Preferences.
Implicit Types (rk : list (list Z)) (group : list Z).

Lemma candidate_position_Some rk cand i :
  candidate_position rk cand = Some i ↔
  ∃ group, rk !! i = Some group ∧ cand ∈ group ∧
           ∀ j group', (j < i)%nat → rk !! j = Some group' → cand ∉ group'.
Proof.
  revert i. induction rk as [|g later IH]; intros i; simpl.
  { split; [done|]. by intros (group & Hi & _). }
  case_decide as Hg.
  - split.
    + intros [= <-]. exists g. split; [done|]. split; [done|]. intros; lia.
    + intros (group & Hi & Hc & Hfirst). destruct i as [|i]; [done|].
      exfalso. by apply (Hfirst 0%nat g); [lia| |].
  - destruct (candidate_position later cand) as [p|] eqn:Hp; simpl.
    + split.
      * intros [= <-].
        destruct (proj1 (IH p) eq_refl) as (group & Hi & Hc & Hfirst).
        exists group. split; [done|]. split; [done|].
        intros [|j] group' Hj Hl; simpl in Hl; [by simplify_eq|].
        apply (Hfirst j); [lia|done].
      * intros (group & Hi & Hc & Hfirst). destruct i as [|i].
        { simpl in Hi. by simplify_eq. }
        assert (Some p = Some i) as [= ->]; [|done].
        apply (IH i). exists group. split; [done|].
        split; [done|]. intros j group' Hj Hl. apply (Hfirst (S j)); [lia|done].
    + split; [done|]. intros (group & Hi & Hc & Hfirst). destruct i as [|i].
      { simpl in Hi. by simplify_eq. }
      assert (@None nat = Some i) as Hsome; [|done].
      apply (IH i). exists group. split; [done|]. split; [done|].
      intros j group' Hj Hl. apply (Hfirst (S j)); [lia|done].
Qed.

Lemma candidate_position_None rk cand :
  candidate_position rk cand = None ↔ ∀ group, group ∈ rk → cand ∉ group.
Proof.
  induction rk as [|g later IH]; simpl.
  { split; [|done]. intros _ group Hg. by apply elem_of_nil in Hg. }
  case_decide as Hg.
  - split; [done|]. intros Hall. exfalso. apply (Hall g); [left|done].
  - rewrite fmap_None, IH. split.
    + intros Hall group [->|Hin]%elem_of_cons; [done|by apply Hall].
    + intros Hall group Hin. apply Hall. by right.
Qed.
End Preferences.

(** X8.  [candidate_position] returns the index of the first tie group that
    contains the candidate, and [None] exactly when no group contains it. *)
Theorem candidate_position_first_group (rk : list (list Z)) (cand : Z) :
  (∀ i, candidate_position rk cand = Some i ↔
        ∃ group, rk !! i = Some group ∧ cand ∈ group ∧
                 ∀ j group', (j < i)%nat → rk !! j = Some group' →
                             cand ∉ group') ∧
  (candidate_position rk cand = None ↔
   ∀ group, group ∈ rk → cand ∉ group).
Proof.
  split; [intros i; apply candidate_position_Some|apply candidate_position_None].
Qed.

(** X9.  For every ranking [prefers_over] is a strict order on candidates:
    nobody is preferred to itself, two candidates are never each preferred
    to the other, and preference is transitive. *)
Theorem prefers_over_strict_order (rk : list (list Z)) :
  (∀ a, prefers_over rk a a = false) ∧
  (∀ a b, prefers_over rk a b = true → prefers_over rk b a = false) ∧
  (∀ a b c, prefers_over rk a b = true → prefers_over rk b c = true →
            prefers_over rk a c = true).
Proof.
  unfold prefers_over. split; [|split].
  - intros a. destruct (candidate_position rk a); [|done].
    apply bool_decide_eq_false. lia.
  - intros a b.
    destruct (candidate_position rk a), (candidate_position rk b); try done.
    rewrite bool_decide_eq_true, bool_decide_eq_false. lia.
  - intros a b c.
    destruct (candidate_position rk a), (candidate_position rk b),
      (candidate_position rk c); try done.
    rewrite !bool_decide_eq_true. lia.
Qed.

(** X10.  A candidate the ranking does not contain is preferred to nobody; a
    ranked candidate is preferred to every unranked one; and candidates
    whose first appearance is in the same tie group are not preferred to
    each other. *)
Theorem prefers_over_unranked_and_tied (rk : list (list Z)) (a b : Z) :
  ((∀ group, group ∈ rk → a ∉ group) → prefers_over rk a b = false) ∧
  ((∃ group, group ∈ rk ∧ a ∈ group) → (∀ group, group ∈ rk → b ∉ group) →
   prefers_over rk a b = true) ∧
  (candidate_position rk a = candidate_position rk b →
   prefers_over rk a b = false).
Proof.
  unfold prefers_over. split; [|split].
  - intros Ha%candidate_position_None. rewrite Ha.
    by destruct (candidate_position rk b).
  - intros (group & Hg & Ha) Hb%candidate_position_None. rewrite Hb.
    destruct (candidate_position rk a) as [p|] eqn:Hp; [done|].
    exfalso. by apply (proj1 (candidate_position_None rk a) Hp group).
  - intros ->. destruct (candidate_position rk b); [|done].
    apply bool_decide_eq_false. lia.
Qed.

(** ** Shape of the strategic ranking on arbitrary input *)

Section StrategicShape.
Implicit Types (rk : list (list Z)) (flat l m : list Z).

Lemma foldl_append_new_NoDup flat l :
  NoDup flat →
  NoDup (foldl append_new flat l) ∧
  ∀ c, c ∈ foldl append_new flat l ↔ c ∈ flat ∨ c ∈ l.
Proof.
  revert flat. induction l as [|x l IH]; intros flat Hnd; simpl.
  { split; [done|]. intros c. rewrite elem_of_nil. tauto. }
  unfold append_new at 2 4. case_decide as Hx.
  - destruct (IH flat Hnd) as [Hnd' Hin]. split; [done|].
    intros c. rewrite Hin, elem_of_cons.
    split; [tauto|]. intros [?|[->|?]]; tauto.
  - destruct (IH (flat ++ [x])) as [Hnd' Hin].
    { apply NoDup_app. split; [done|]. split; [|apply NoDup_singleton].
      intros c Hc ->%list_elem_of_singleton. done. }
    split; [done|]. intros c.
    rewrite Hin, elem_of_app, list_elem_of_singleton, elem_of_cons. tauto.
Qed.

(** The candidates collected before the target and the winner are moved. *)
Definition collected rk (all_candidates : list Z) : list Z :=
  foldl append_new [] (concat rk ++ all_candidates).

Lemma collected_spec rk all_candidates :
  NoDup (collected rk all_candidates) ∧
  ∀ c, c ∈ collected rk all_candidates ↔ c ∈ concat rk ∨ c ∈ all_candidates.
Proof.
  destruct (foldl_append_new_NoDup [] (concat rk ++ all_candidates))
    as [Hnd Hin]; [constructor|].
  split; [done|]. intros c. unfold collected.
  rewrite Hin, elem_of_nil, elem_of_app. tauto.
Qed.

Lemma build_strategic_ballot_flat rk target winner all_candidates :
  build_strategic_ballot_from_ranking rk target winner all_candidates =
  (λ c, [c]) <$>
    (filter (λ c, c ≠ winner)
       (target :: filter (λ c, c ≠ target) (collected rk all_candidates))
     ++ [winner]).
Proof.
  unfold build_strategic_ballot_from_ranking, collected.
  rewrite foldl_append_new_groups, <-foldl_app.
  fold (collected rk all_candidates).
  destruct (collected_spec rk all_candidates) as [Hnd _].
  rewrite (remove_first_NoDup target _ Hnd).
  rewrite remove_first_NoDup; [done|].
  apply NoDup_cons. split; [|by apply NoDup_filter].
  rewrite list_elem_of_filter. tauto.
Qed.

Lemma candidate_position_singletons_at m x later :
  x ∉ m →
  candidate_position ((λ c, [c]) <$> (m ++ x :: later)) x = Some (length m).
Proof.
  induction m as [|y m IH]; intros Hx.
  { simpl. rewrite decide_True; [done|]. left. }
  apply not_elem_of_cons in Hx as [Hne Hx].
  rewrite <-app_comm_cons, fmap_cons. cbn [candidate_position].
  rewrite decide_False by (by rewrite list_elem_of_singleton).
  by rewrite IH.
Qed.

Lemma candidate_position_singletons_before m c later :
  c ∈ m →
  ∃ i, (i < length m)%nat ∧
       candidate_position ((λ c, [c]) <$> (m ++ later)) c = Some i.
Proof.
  induction m as [|y m IH]; intros Hc; [by apply elem_of_nil in Hc|].
  rewrite <-app_comm_cons, fmap_cons. cbn [candidate_position length].
  destruct (decide (c = y)) as [->|Hne].
  - exists 0%nat. split; [lia|]. rewrite decide_True; [done|]. left.
  - apply elem_of_cons in Hc as [?|Hc]; [done|].
    destruct (IH Hc) as (i & Hi & Hpos).
    exists (S i). split; [lia|].
    rewrite decide_False by (by rewrite list_elem_of_singleton).
    by rewrite Hpos.
Qed.
End StrategicShape.

(** X11.  Whatever the ranking, the candidate list, the target and the
    winner are, the strategic ranking consists of one-candidate groups, names
    no candidate twice, names exactly the candidates of the ranking and of
    the candidate list together with the target and the winner, and ends
    with the winner. *)
Theorem build_strategic_ballot_complete (rk : list (list Z))
    (target winner : Z) (all_candidates : list Z) :
  ∃ flat,
    build_strategic_ballot_from_ranking rk target winner all_candidates =
      (λ c, [c]) <$> flat ∧
    NoDup flat ∧
    (∀ c, c ∈ flat ↔
          c ∈ concat rk ∨ c ∈ all_candidates ∨ c = target ∨ c = winner) ∧
    last flat = Some winner.
Proof.
  destruct (collected_spec rk all_candidates) as [Hnd Hin].
  eexists. split; [apply build_strategic_ballot_flat|].
  assert (NoDup (target :: filter (λ c, c ≠ target)
                              (collected rk all_candidates))) as Hnd1.
  { apply NoDup_cons. split; [|by apply NoDup_filter].
    rewrite list_elem_of_filter. tauto. }
  split; [|split].
  - apply NoDup_app. split; [by apply NoDup_filter|].
    split; [|apply NoDup_singleton].
    intros c Hc ->%list_elem_of_singleton.
    apply list_elem_of_filter in Hc. tauto.
  - intros c.
    rewrite elem_of_app, list_elem_of_singleton, list_elem_of_filter,
      elem_of_cons, list_elem_of_filter, Hin.
    destruct (decide (c = winner)), (decide (c = target)); tauto.
  - apply last_snoc.
Qed.

(** X12.  When the target differs from the winner, the strategic ranking
    prefers the target to every other candidate, and prefers to the winner
    every other candidate it names. *)
Theorem build_strategic_ballot_extremes (rk : list (list Z))
    (target winner : Z) (all_candidates : list Z) (c : Z) :
  target ≠ winner →
  (c ≠ target →
   prefers_over
     (build_strategic_ballot_from_ranking rk target winner all_candidates)
     target c = true) ∧
  (c ≠ winner →
   c ∈ concat rk ∨ c ∈ all_candidates ∨ c = target →
   prefers_over
     (build_strategic_ballot_from_ranking rk target winner all_candidates)
     c winner = true).
Proof.
  intros Hne. rewrite build_strategic_ballot_flat.
  destruct (collected_spec rk all_candidates) as [Hnd Hin].
  rewrite filter_cons_True by done.
  set (m := filter (λ c, c ≠ winner)
              (filter (λ c, c ≠ target) (collected rk all_candidates))).
  split.
  - intros Hc. unfold prefers_over. simpl.
    rewrite decide_True by left.
    rewrite decide_False by (by rewrite list_elem_of_singleton).
    by destruct (candidate_position _ c).
  - intros Hc Hnamed. unfold prefers_over.
    assert (winner ∉ target :: m) as Hw.
    { rewrite not_elem_of_cons. split; [done|]. unfold m.
      rewrite list_elem_of_filter. tauto. }
    assert (c ∈ target :: m) as Hcm.
    { rewrite elem_of_cons. unfold m. rewrite !list_elem_of_filter, Hin.
      destruct (decide (c = target)); tauto. }
    change (target :: m ++ [winner]) with ((target :: m) ++ [winner]).
    rewrite (candidate_position_singletons_at _ winner [] Hw).
    destruct (candidate_position_singletons_before _ c [winner] Hcm)
      as (i & Hi & ->).
    by apply bool_decide_eq_true.
Qed.

Lemma build_strategic_ballot_extremes_witness :
  (3:Z) ≠ 2 ∧
  prefers_over (build_strategic_ballot_from_ranking [[2]; [1; 3]] 3 2 [1; 2; 3; 4])
    3 1 = true.
Proof.
  assert ((3:Z) ≠ 2) as Hne by lia.
  split; [exact Hne|].
  refine (proj1 (build_strategic_ballot_extremes [[2]; [1; 3]] 3 2 [1; 2; 3; 4]
                   1 Hne) _).
  lia.
Defined.

(** ** Substitution outside the list, and searches that cannot succeed *)

Lemma withdraw_beyond (idx i : nat) (k : Z)
    (ballots : list (Z * list (list Z))) :
  (idx + length ballots ≤ i)%nat → withdraw idx i k ballots = ballots.
Proof.
  revert idx. induction ballots as [|[w r] later IH]; intros idx Hi; [done|].
  simpl in *. rewrite decide_False by lia. rewrite IH by lia. done.
Qed.

(** X13.  [apply_manipulation] does not check the index: when it is past
    the end of the list, no ballot type loses voters and the strategic type
    is appended all the same, so the electorate grows by [k]. *)
Theorem apply_manipulation_out_of_range (ballots : list (Z * list (list Z)))
    (type_index : nat) (k : Z) (strategic : list (list Z)) :
  (length ballots ≤ type_index)%nat →
  apply_manipulation ballots type_index k strategic =
    ballots ++ [(k, strategic)] ∧
  total_weight (apply_manipulation ballots type_index k strategic) =
    total_weight ballots + k.
Proof.
  intros Hi. unfold apply_manipulation.
  rewrite withdraw_beyond by (simpl; lia).
  split; [done|]. rewrite total_weight_app. unfold total_weight. simpl. lia.
Qed.

Lemma apply_manipulation_out_of_range_witness :
  (length example_ballots ≤ 3)%nat ∧
  apply_manipulation example_ballots 3 2 [[1]] = example_ballots ++ [(2, [[1]])].
Proof.
  assert (length example_ballots ≤ 3)%nat as Hi by (simpl; lia).
  split; [exact Hi|].
  exact (proj1 (apply_manipulation_out_of_range example_ballots 3 2 [[1]] Hi)).
Defined.

(** Nobody is preferred to a candidate of the first tie group. *)
Lemma prefers_over_top (rk : list (list Z)) (t w : Z) :
  candidate_position rk w = Some 0%nat → prefers_over rk t w = false.
Proof.
  intros Hw. unfold prefers_over. rewrite Hw.
  destruct (candidate_position rk t); [|done].
  apply bool_decide_eq_false. lia.
Qed.

Section NoIncentive.
Variables (candidates : list Z) (ballots : list (Z * list (list Z))).
Variable (winner : Z).
Hypothesis content :
  ∀ t b, t ≠ winner → b ∈ ballots → prefers_over b.2 t winner = false.

Lemma scan_types_no_incentive tgt idx types best :
  tgt ≠ winner → (∀ b, b ∈ types → b ∈ ballots) →
  scan_types candidates ballots winner tgt idx types best = Returned best.
Proof.
  intros Hne. revert idx.
  induction types as [|[weight rk] later IH]; intros idx Hsub; [done|].
  assert (prefers_over rk tgt winner = false) as Hno.
  { apply (content tgt (weight, rk)); [done|apply Hsub; left]. }
  simpl. rewrite Hno.
  apply IH. intros b Hb. apply Hsub. by right.
Qed.

Lemma scan_targets_no_incentive targets best :
  scan_targets candidates ballots winner targets best = Returned best.
Proof.
  induction targets as [|tgt later IH]; [done|]. simpl.
  case_decide; [done|]. by rewrite scan_types_no_incentive.
Qed.
End NoIncentive.

(** X14.  When the unmodified election has a single winner and no ballot
    type strictly prefers any other candidate to that winner, the search
    returns the sentinel without tabulating any modified election. *)
Theorem find_smallest_manipulating_coalition_no_incentive
    (candidates : list Z) (ballots : list (Z * list (list Z)))
    (w0 : Z) (order0 : list Z) :
  stv candidates ballots = Some (Some [w0], order0) →
  (∀ t b, t ≠ w0 → b ∈ ballots → prefers_over b.2 t w0 = false) →
  find_smallest_manipulating_coalition candidates ballots = Returned None.
Proof.
  intros Hstv Hcontent. unfold find_smallest_manipulating_coalition.
  apply (stv_winners_Returned candidates ballots) in Hstv.
  rewrite Hstv. simpl. by apply scan_targets_no_incentive.
Qed.

Lemma find_smallest_manipulating_coalition_no_incentive_witness :
  (stv [1; 2] [(3, [[1]; [2]]); (1, [[1; 2]])] = Some (Some [1], [2; 1]) ∧
   ∀ t b, t ≠ 1 → b ∈ [(3, [[1]; [2]]); (1, [[1; 2]])] →
          prefers_over b.2 t 1 = false) ∧
  find_smallest_manipulating_coalition [1; 2] [(3, [[1]; [2]]); (1, [[1; 2]])]
    = Returned None.
Proof.
  assert (stv [1; 2] [(3, [[1]; [2]]); (1, [[1; 2]])] = Some (Some [1], [2; 1]))
    as H1 by (vm_compute; reflexivity).
  assert (∀ t b, t ≠ 1 → b ∈ [(3, [[1]; [2]]); (1, [[1; 2]])] →
                 prefers_over b.2 t 1 = false) as H2.
  { intros t b Ht Hb. apply prefers_over_top. clear Ht.
    apply elem_of_cons in Hb as [->|Hb]; [reflexivity|].
    apply elem_of_cons in Hb as [->|Hb]; [reflexivity|].
    apply elem_of_nil in Hb. destruct Hb. }
  split; [by split|].
  exact (find_smallest_manipulating_coalition_no_incentive _ _ 1 [2; 1] H1 H2).
Defined.

(** ** Outcomes of the search *)

Section SearchOutcomes.
Variables (candidates : list Z) (ballots : list (Z * list (list Z))).
Variable (winner : Z).

(** Every tabulation that the search can ask for returns a list of
    winners. *)
Hypothesis tabulations_return :
  ∀ t i w rk k,
    t ∈ candidates → t ≠ winner →
    ballots !! i = Some (w, rk) →
    prefers_over rk t winner = true →
    1 ≤ k ≤ w →
    ∃ ws order,
      stv candidates
          (apply_manipulation ballots i k
             (build_strategic_ballot_from_ranking rk t winner candidates))
      = Some (Some ws, order).

Lemma try_sizes_returns tgt idx w rk sizes best :
  tgt ∈ candidates → tgt ≠ winner →
  ballots !! idx = Some (w, rk) →
  prefers_over rk tgt winner = true →
  (∀ k, k ∈ sizes → 1 ≤ k ≤ w) →
  ∃ best',
    try_sizes candidates ballots winner tgt idx rk
      (build_strategic_ballot_from_ranking rk tgt winner candidates)
      sizes best
    = Returned best'.
Proof.
  intros Htgt Hne Hidx Hp.
  induction sizes as [|k larger IH]; intros Hsizes; simpl; [eauto|].
  destruct (tabulations_return tgt idx w rk k) as (ws & order & Hrun);
    [done|done|done|done|apply Hsizes; left|].
  apply stv_winners_Returned in Hrun. rewrite Hrun. simpl.
  case_bool_decide; [eauto|].
  apply IH. intros k' Hk'. apply Hsizes. by right.
Qed.

Lemma scan_types_returns tgt idx types best :
  tgt ∈ candidates → tgt ≠ winner →
  (∀ j, types !! j = ballots !! (idx + j)%nat) →
  ∃ best', scan_types candidates ballots winner tgt idx types best
           = Returned best'.
Proof.
  intros Htgt Hne. revert idx best.
  induction types as [|[weight rk] later IH]; intros idx best Htypes; simpl;
    [eauto|].
  assert (∀ j, later !! j = ballots !! (S idx + j)%nat) as Hlater.
  { intros j. replace (S idx + j)%nat with (idx + S j)%nat by lia.
    apply (Htypes (S j)). }
  destruct (prefers_over rk tgt winner) eqn:Hp; [|by apply IH].
  destruct (try_sizes_returns tgt idx weight rk (py_range 1 (weight + 1)) best)
    as (best1 & ->); [done|done| |done| |].
  - pose proof (Htypes 0%nat) as H0. rewrite Nat.add_0_r in H0. by rewrite <-H0.
  - intros k Hk%py_range_elem. lia.
  - simpl. by apply IH.
Qed.

Lemma scan_targets_returns targets best :
  (∀ t, t ∈ targets → t ∈ candidates) →
  ∃ best', scan_targets candidates ballots winner targets best
           = Returned best'.
Proof.
  revert best. induction targets as [|tgt later IH]; intros best Hsub; simpl;
    [eauto|].
  assert (∀ t, t ∈ later → t ∈ candidates) as Hlater
    by (intros t Ht; apply Hsub; by right).
  case_decide; [by apply IH|].
  destruct (scan_types_returns tgt 0 ballots best) as (best1 & ->);
    [apply Hsub; left|done|done|].
  simpl. by apply IH.
Qed.
End SearchOutcomes.

(** X15.  When the unmodified tabulation returns a list of winners, and so
    does every tabulation of a modified election that the search can ask
    for, the search returns (it does not raise): the sentinel when the
    unmodified election has several winners, and with a single winner the
    sentinel exactly when no candidate other than the winner, ballot type
    preferring that candidate and size between 1 and the type's weight make
    that candidate the only winner. *)
Theorem find_smallest_manipulating_coalition_returns
    (candidates : list Z) (ballots : list (Z * list (list Z)))
    (ws order : list Z) :
  stv candidates ballots = Some (Some ws, order) →
  (∀ w0 t i w rk k,
     ws = [w0] →
     t ∈ candidates → t ≠ w0 →
     ballots !! i = Some (w, rk) →
     prefers_over rk t w0 = true →
     1 ≤ k ≤ w →
     ∃ ws' order',
       stv candidates
           (apply_manipulation ballots i k
              (build_strategic_ballot_from_ranking rk t w0 candidates))
       = Some (Some ws', order')) →
  ∃ answer,
    find_smallest_manipulating_coalition candidates ballots = Returned answer ∧
    (length ws ≠ 1%nat → answer = None) ∧
    (∀ w0, ws = [w0] →
       (answer = None ↔
        ∀ t i w rk k order',
          t ∈ candidates → t ≠ w0 →
          ballots !! i = Some (w, rk) →
          prefers_over rk t w0 = true →
          1 ≤ k ≤ w →
          stv candidates
              (apply_manipulation ballots i k
                 (build_strategic_ballot_from_ranking rk t w0 candidates))
          ≠ Some (Some [t], order'))).
Proof.
  intros Hstv Htab. unfold find_smallest_manipulating_coalition.
  apply stv_winners_Returned in Hstv. rewrite Hstv. simpl.
  destruct ws as [|w0 [|w1 ws]].
  - exists None. split; [done|]. split; [done|]. intros w0 [=].
  - destruct (scan_targets_returns candidates ballots w0
                (λ t i w rk k, Htab w0 t i w rk k eq_refl) candidates None)
      as (answer & Hrun); [done|].
    exists answer. split; [done|]. split; [done|].
    intros ? [= <-].
    destruct (scan_targets_spec candidates ballots w0 candidates None answer)
      as (Hsound & _ & Hall); [done|done|by intros b|].
    split.
    + intros -> t i w rk k order' Ht Htw Hi Hp Hk Hwin.
      by destruct (Hall t i w rk k order' Ht Htw Hi Hp Hk Hwin) as (b & ? & _).
    + intros Hnone. destruct answer as [b|]; [|done]. exfalso.
      destruct (Hsound b eq_refl)
        as (_ & Ht & Htw & _ & (w & Hi & Hk) & Hp & Hwin).
      by eapply Hnone.
  - exists None. split; [done|]. split; [done|]. intros w0' [=].
Qed.

Lemma find_smallest_manipulating_coalition_returns_witness :
  (stv [1; 2; 3] manipulable_ballots = Some (Some [1], [2; 3; 1]) ∧
   ∀ w0 t i w rk k,
     [1] = [w0] →
     t ∈ [1; 2; 3] → t ≠ w0 →
     manipulable_ballots !! i = Some (w, rk) →
     prefers_over rk t w0 = true →
     1 ≤ k ≤ w →
     ∃ ws' order',
       stv [1; 2; 3]
           (apply_manipulation manipulable_ballots i k
              (build_strategic_ballot_from_ranking rk t w0 [1; 2; 3]))
       = Some (Some ws', order')) ∧
  ∃ answer,
    find_smallest_manipulating_coalition [1; 2; 3] manipulable_ballots
      = Returned answer ∧
    answer ≠ None.
Proof.
  assert (stv [1; 2; 3] manipulable_ballots = Some (Some [1], [2; 3; 1]))
    as H1 by (vm_compute; reflexivity).
  assert (∀ w0 t i w rk k,
     [1] = [w0] →
     t ∈ [1; 2; 3] → t ≠ w0 →
     manipulable_ballots !! i = Some (w, rk) →
     prefers_over rk t w0 = true →
     1 ≤ k ≤ w →
     ∃ ws' order',
       stv [1; 2; 3]
           (apply_manipulation manipulable_ballots i k
              (build_strategic_ballot_from_ranking rk t w0 [1; 2; 3]))
       = Some (Some ws', order')) as H2.
  { intros w0 t i w rk k [= <-] Ht Hne Hi Hp Hk.
    assert (t = 2 ∨ t = 3) as Ht'.
    { apply list_elem_of_In in Ht. simpl in Ht. lia. }
    clear Ht Hne. revert Hp Hk.
    destruct Ht' as [-> | ->];
      (destruct i as [|[|[|i]]]; simpl in Hi; [| | |discriminate Hi]);
      injection Hi as <- <-; intros Hp Hk;
      try discriminate Hp; clear Hp;
      assert (k = 1 ∨ k = 2 ∨ k = 3 ∨ k = 4 ∨ k = 5) as Hcases by lia;
      destruct Hcases as [->|[->|[->|[->| ->]]]]; try lia;
      eexists _, _; vm_compute; reflexivity. }
  split; [by split|].
  destruct (find_smallest_manipulating_coalition_returns [1; 2; 3]
              manipulable_ballots [1] [2; 3; 1] H1 H2)
    as (answer & Hrun & _ & Hnone).
  exists answer. split; [exact Hrun|].
  intros Hans. pose proof (proj1 (Hnone 1 eq_refl) Hans) as Hall.
  apply (Hall 2 2%nat 5 [[3]; [2]; [1]] 2 [3; 1; 2]).
  - apply list_elem_of_In. simpl. tauto.
  - lia.
  - reflexivity.
  - vm_compute; reflexivity.
  - lia.
  - vm_compute; reflexivity.
Defined.

(** ** Which of several smallest coalitions is reported *)

Section FirstFound.
Variables (candidates : list Z) (ballots : list (Z * list (list Z))).
Variable (winner : Z).
Implicit Types (best : option manipulation) (before : list Z).

(** Some [k] voters of ballot type [i], which prefers [t] to the winner, can
    make [t] the only winner. *)
Definition eligible_win (t : Z) (i : nat) (k : Z) : Prop :=
  ∃ w rk order,
    ballots !! i = Some (w, rk) ∧
    prefers_over rk t winner = true ∧
    1 ≤ k ≤ w ∧
    wins_with candidates ballots winner t i rk k order.

(** The combinations tried before type [idx] of target [tgt] is reached,
    the targets of [before] being done. *)
Definition tried before (tgt : Z) (idx : nat) (t : Z) (i : nat) : Prop :=
  t ∈ before ∨ (t = tgt ∧ (i < idx)%nat).

(** Every winning combination tried so far is matched by the best result. *)
Definition complete best (D : Z → nat → Prop) : Prop :=
  ∀ t i k, D t i → eligible_win t i k → bounded best k.

(** [b] beats every winning combination tried before its own. *)
Definition recorded_after (b : manipulation) before : Prop :=
  ∀ t i k, tried before (target b) (type_index b) t i →
           eligible_win t i k → coalition_size b < k.

Definition types_invariant best before (tgt : Z) (idx : nat) : Prop :=
  complete best (tried before tgt idx) ∧
  ∀ b, best = Some b →
    (∃ pre post, before = pre ++ target b :: post ∧ recorded_after b pre) ∨
    (target b = tgt ∧ (type_index b < idx)%nat ∧ recorded_after b before).

Definition targets_invariant best before : Prop :=
  complete best (λ t _, t ∈ before) ∧
  ∀ b, best = Some b →
    ∃ pre post, before = pre ++ target b :: post ∧ recorded_after b pre.

Lemma try_sizes_update tgt idx rk strategic sizes best best' :
  try_sizes candidates ballots winner tgt idx rk strategic sizes best
    = Returned best' →
  best' = best ∨
  ∃ k order,
    improves k best = true ∧
    best' = Some {| orig_winner := winner; coalition_size := k;
                    target := tgt; type_index := idx;
                    true_ranking := rk; strategic_ballot := strategic;
                    new_elim_order := order |}.
Proof.
  induction sizes as [|k larger IH]; simpl; intros Hrun.
  { injection Hrun as <-. by left. }
  apply bind_Returned in Hrun as (res & _ & Hrun).
  case_bool_decide; [|by apply IH].
  injection Hrun as <-.
  destruct (improves k best) eqn:Himp; [|by left].
  right. by exists k, (res.2).
Qed.

Lemma types_invariant_step best best' before tgt idx weight rk :
  ballots !! idx = Some (weight, rk) →
  types_invariant best before tgt idx →
  (if prefers_over rk tgt winner
   then try_sizes candidates ballots winner tgt idx rk
          (build_strategic_ballot_from_ranking rk tgt winner candidates)
          (py_range 1 (weight + 1)) best
   else Returned best) = Returned best' →
  types_invariant best' before tgt (S idx).
Proof.
  intros Hidx [Hcomplete Hrecorded] Hrun.
  assert (∀ b, best = Some b →
    (∃ pre post, before = pre ++ target b :: post ∧ recorded_after b pre) ∨
    (target b = tgt ∧ (type_index b < S idx)%nat ∧ recorded_after b before))
    as Hkeep.
  { intros b Hb. destruct (Hrecorded b Hb) as [?|(? & ? & ?)]; [by left|].
    right. repeat split; [done|lia|done]. }
  destruct (prefers_over rk tgt winner) eqn:Hpref.
  - destruct (try_sizes_spec _ _ _ _ _ _ _ _ _ _ (py_range_sorted _ _) Hrun)
      as (Hmono & Hall & _).
    split.
    + intros t i k [Ht|[-> Hi]] Hwin.
      * apply Hmono. apply (Hcomplete t i); [by left|done].
      * destruct (decide (i = idx)) as [->|Hne].
        -- destruct Hwin as (w' & rk' & order & Hi' & _ & Hk & Hwin).
           rewrite Hidx in Hi'. injection Hi' as <- <-.
           eapply Hall; [|exact Hwin]. apply py_range_elem. lia.
        -- apply Hmono. apply (Hcomplete tgt i); [right; split; [done|lia]|done].
    + destruct (try_sizes_update _ _ _ _ _ _ _ Hrun)
        as [->|(k & order & Himp & ->)]; [done|].
      intros b [= <-]. right. simpl. split; [done|]. split; [lia|].
      intros t i k' Htried Hwin. simpl in Htried.
      destruct (Hcomplete t i k' Htried Hwin) as (b0 & -> & Hb0).
      simpl in Himp. apply bool_decide_eq_true in Himp. simpl. lia.
  - injection Hrun as <-. split; [|done].
    intros t i k [Ht|[-> Hi]] Hwin.
    + apply (Hcomplete t i); [by left|done].
    + destruct (decide (i = idx)) as [->|Hne].
      * destruct Hwin as (w' & rk' & order & Hi' & Hp & _).
        rewrite Hidx in Hi'. injection Hi' as <- <-. congruence.
      * apply (Hcomplete tgt i); [right; split; [done|lia]|done].
Qed.

Lemma scan_types_first tgt idx types best best' before :
  (∀ j, types !! j = ballots !! (idx + j)%nat) →
  scan_types candidates ballots winner tgt idx types best = Returned best' →
  types_invariant best before tgt idx →
  types_invariant best' before tgt (idx + length types).
Proof.
  revert idx best. induction types as [|[weight rk] later IH];
    intros idx best Htypes Hrun Hinv.
  { simpl in Hrun. injection Hrun as <-. by rewrite Nat.add_0_r. }
  assert (∀ j, later !! j = ballots !! (S idx + j)%nat) as Hlater.
  { intros j. pose proof (Htypes (S j)) as Hj. simpl in Hj.
    rewrite Hj. f_equal. lia. }
  assert (ballots !! idx = Some (weight, rk)) as Hidx.
  { pose proof (Htypes 0%nat) as Hj. simpl in Hj.
    rewrite Nat.add_0_r in Hj. done. }
  replace (idx + length ((weight, rk) :: later))%nat
    with (S idx + length later)%nat by (simpl; lia).
  simpl in Hrun. destruct (prefers_over rk tgt winner) eqn:Hpref.
  - apply bind_Returned in Hrun as (best1 & Hsizes & Hrun).
    apply (IH (S idx) best1); [done|done|].
    eapply types_invariant_step; [exact Hidx|exact Hinv|]. by rewrite Hpref.
  - apply (IH (S idx) best); [done|done|].
    eapply types_invariant_step; [exact Hidx|exact Hinv|]. by rewrite Hpref.
Qed.

Lemma eligible_win_bound t i k : eligible_win t i k → (i < length ballots)%nat.
Proof. intros (w & rk & order & Hi & _). by eapply lookup_lt_Some. Qed.

Lemma eligible_win_not_winner i k : ¬ eligible_win winner i k.
Proof.
  intros (w & rk & order & _ & Hp & _).
  destruct (prefers_over_strict_order rk) as [Hirr _]. congruence.
Qed.

Lemma scan_targets_first targets best best' before :
  scan_targets candidates ballots winner targets best = Returned best' →
  targets_invariant best before →
  targets_invariant best' (before ++ targets).
Proof.
  revert best before. induction targets as [|tgt later IH];
    intros best before Hrun Hinv.
  { simpl in Hrun. injection Hrun as <-. by rewrite app_nil_r. }
  replace (before ++ tgt :: later) with ((before ++ [tgt]) ++ later)
    by (by rewrite <-app_assoc).
  simpl in Hrun. destruct (decide (tgt = winner)) as [->|Hne].
  - apply (IH best); [done|]. destruct Hinv as [Hcomplete Hrecorded]. split.
    + intros t i k [Ht|Ht]%elem_of_app Hwin.
      * by apply (Hcomplete t i).
      * apply list_elem_of_singleton in Ht as ->.
        by apply eligible_win_not_winner in Hwin.
    + intros b Hb. destruct (Hrecorded b Hb) as (pre & post & -> & Hrec).
      exists pre, (post ++ [winner]). split; [|done].
      by rewrite <-app_assoc.
  - apply bind_Returned in Hrun as (best1 & Htypes & Hrun).
    apply (IH best1); [done|].
    assert (types_invariant best before tgt 0) as Hstart.
    { destruct Hinv as [Hcomplete Hrecorded]. split.
      - intros t i k [Ht|[_ Hi]] Hwin; [by apply (Hcomplete t i)|lia].
      - intros b Hb. left. by apply Hrecorded. }
    pose proof (scan_types_first tgt 0 ballots best best1 before
                  (λ j, eq_refl) Htypes Hstart) as [Hcomplete Hrecorded].
    split.
    + intros t i k [Ht|Ht]%elem_of_app Hwin.
      * apply (Hcomplete t i); [by left|done].
      * apply list_elem_of_singleton in Ht as ->.
        apply (Hcomplete tgt i); [|done]. right. split; [done|].
        simpl. by eapply eligible_win_bound.
    + intros b Hb. destruct (Hrecorded b Hb)
        as [(pre & post & -> & Hrec)|(<- & _ & Hrec)].
      * exists pre, (post ++ [tgt]). split; [|done]. by rewrite <-app_assoc.
      * by exists before, [].
Qed.
End FirstFound.

(** X16.  Among the coalitions of the smallest size the search reports the
    first one it meets: every combination tried earlier (an earlier target
    of the candidate list with any ballot type, or the same target with an
    earlier ballot type) that makes its target the only winner needs
    strictly more voters than the reported coalition. *)
Theorem find_smallest_manipulating_coalition_first_found
    (candidates : list Z) (ballots : list (Z * list (list Z)))
    (w0 : Z) (order0 : list Z) (result : manipulation) :
  stv candidates ballots = Some (Some [w0], order0) →
  find_smallest_manipulating_coalition candidates ballots
    = Returned (Some result) →
  ∃ before after,
    candidates = before ++ target result :: after ∧
    ∀ (t' : Z) (i' : nat) (w' : Z) (r' : list (list Z)) (k' : Z)
      (order' : list Z),
      t' ∈ before ∨ (t' = target result ∧ (i' < type_index result)%nat) →
      ballots !! i' = Some (w', r') →
      prefers_over r' t' w0 = true →
      1 ≤ k' ≤ w' →
      stv candidates
          (apply_manipulation ballots i' k'
             (build_strategic_ballot_from_ranking r' t' w0 candidates))
        = Some (Some [t'], order') →
      coalition_size result < k'.
Proof.
  intros Hstv Hfind. unfold find_smallest_manipulating_coalition in Hfind.
  apply (stv_winners_Returned candidates ballots) in Hstv.
  rewrite Hstv in Hfind. simpl in Hfind.
  destruct (scan_targets_first candidates ballots w0 candidates None
              (Some result) [] Hfind) as [_ Hrecorded].
  { split; [|done]. intros t i k Ht. by apply elem_of_nil in Ht. }
  destruct (Hrecorded result eq_refl) as (pre & post & Hsplit & Hrec).
  exists pre, post. split; [done|].
  intros t' i' w' r' k' order' Htried Hi Hp Hk Hwin.
  apply (Hrec t' i' k' Htried). by exists w', r', order'.
Qed.

Lemma find_smallest_manipulating_coalition_first_found_witness :
  (stv [1; 2; 3] manipulable_ballots = Some (Some [1], [2; 3; 1]) ∧
   find_smallest_manipulating_coalition [1; 2; 3] manipulable_ballots
   = Returned (Some {| orig_winner := 1; coalition_size := 2; target := 2;
                       type_index := 2; true_ranking := [[3]; [2]; [1]];
                       strategic_ballot := [[2]; [3]; [1]];
                       new_elim_order := [3; 1; 2] |})) ∧
  ∃ before after, [1; 2; 3] = before ++ 2 :: after.
Proof.
  assert (stv [1; 2; 3] manipulable_ballots = Some (Some [1], [2; 3; 1]))
    as H1 by (vm_compute; reflexivity).
  assert (find_smallest_manipulating_coalition [1; 2; 3] manipulable_ballots
   = Returned (Some {| orig_winner := 1; coalition_size := 2; target := 2;
                       type_index := 2; true_ranking := [[3]; [2]; [1]];
                       strategic_ballot := [[2]; [3]; [1]];
                       new_elim_order := [3; 1; 2] |}))
    as H2 by (vm_compute; reflexivity).
  split; [by split|].
  destruct (find_smallest_manipulating_coalition_first_found _ _ _ _ _ H1 H2)
    as (before & after & Hsplit & _).
  by exists before, after.
Defined.

(** ** The parser *)

Section ParserFacts.
Import Parsing.
Implicit Types (s rest num : list ascii) (group : list Z).
Implicit Types (ranking : list (list Z)) (c : ascii).

Lemma decimal_char c :
  is_decimal c = true →
  isdigit c = true ∧ isspace c = false ∧
  c ≠ "}"%char ∧ c ≠ "{"%char ∧ c ≠ ","%char ∧ c ≠ " "%char.
Proof.
  unfold isdigit, isspace, is_decimal. intros Hc.
  rewrite Hc. apply bool_decide_eq_true in Hc.
  split; [done|]. split; [apply bool_decide_eq_false; lia|].
  repeat split; intros ->; vm_compute in Hc; destruct Hc as [H1 H2];
    by (apply H1 || apply H2).
Qed.

Lemma py_int_numeral num :
  is_numeral num → py_int num = Parsed (numeral_value num).
Proof.
  intros (Hne & _ & Hdec). unfold py_int.
  destruct num as [|c num]; [done|].
  assert (forallb is_decimal (c :: num) = true) as ->; [|done].
  apply forallb_forall. intros x Hx. rewrite Forall_forall in Hdec.
  apply Hdec. by apply list_elem_of_In.
Qed.

Lemma flush_numeral group num :
  is_numeral num → flush group num = Parsed (group ++ [numeral_value num]).
Proof.
  intros Hnum. unfold flush. rewrite py_int_numeral by done.
  by destruct num as [|c num]; [destruct Hnum|].
Qed.

Lemma scan_number_digits num rest acc :
  Forall (λ c, is_decimal c = true) num →
  (∀ c rest', rest = c :: rest' → isdigit c = false) →
  scan_number (num ++ rest) acc = (acc ++ num, rest).
Proof.
  intros Hdec Hstop. revert acc.
  induction Hdec as [|c num Hc Hdec IH]; intros acc; simpl.
  - rewrite app_nil_r. destruct rest as [|c rest']; [done|].
    simpl. by rewrite (Hstop c rest').
  - destruct (decimal_char c Hc) as [-> _].
    by rewrite IH, <-app_assoc.
Qed.

Lemma scan_group_digits num s group acc :
  Forall (λ c, is_decimal c = true) num →
  scan_group (num ++ s) group acc = scan_group s group (acc ++ num).
Proof.
  intros Hdec. revert acc.
  induction Hdec as [|c num Hc Hdec IH]; intros acc; simpl.
  { by rewrite app_nil_r. }
  destruct (decimal_char c Hc) as (-> & _ & Hclose & _).
  rewrite decide_False by done. by rewrite IH, <-app_assoc.
Qed.

(** Reading the numerals of a group up to the closing brace, or up to the
    end of the input when the brace is missing. *)
Lemma scan_group_commas nums stop group :
  Forall is_numeral nums →
  stop = [] ∨ (∃ rest, stop = "}"%char :: rest) →
  scan_group (commas nums ++ stop) group [] =
  Parsed (group ++ (numeral_value <$> nums), stop).
Proof.
  intros Hnums Hstop.
  assert (∀ g num, scan_group stop g num =
                   and_then (flush g num) (λ g', Parsed (g', stop))) as Hend.
  { intros g num. destruct Hstop as [->|(rest & ->)]; [done|].
    cbn [scan_group]. by rewrite decide_True. }
  destruct nums as [|num nums].
  { simpl. rewrite Hend. simpl. by rewrite app_nil_r. }
  apply Forall_cons in Hnums as [Hnum Hnums]. simpl commas.
  revert num group Hnum.
  induction Hnums as [|num' nums Hnum' Hnums IH]; intros num group Hnum.
  - simpl. rewrite app_nil_r.
    rewrite scan_group_digits by apply Hnum. simpl app.
    rewrite Hend. by rewrite flush_numeral.
  - rewrite fmap_cons. cbn [concat]. rewrite <-!app_assoc.
    rewrite scan_group_digits by apply Hnum. simpl app.
    cbn [scan_group]. rewrite decide_False by done.
    change (isdigit ","%char) with false. cbn iota.
    rewrite decide_True by (by left).
    rewrite flush_numeral by done. cbn [and_then].
    rewrite app_assoc. rewrite (IH num' _ Hnum').
    by rewrite <-app_assoc.
Qed.

Lemma render_group_nonempty (nums : list (list ascii)) :
  Forall is_numeral nums → render_group nums ≠ [].
Proof.
  intros Hnums. destruct nums as [|num [|num' nums]]; [done| |done].
  apply Forall_cons in Hnums as [(Hne & _) _]. done.
Qed.

(** One pass of the outer loop reads one rendered group, when a comma or
    the end of the input follows. *)
Lemma parse_loop_group fuel nums rest ranking :
  Forall is_numeral nums →
  rest = [] ∨ (∃ rest', rest = ","%char :: rest') →
  parse_loop (S fuel) (render_group nums ++ rest) ranking =
  parse_loop fuel rest (ranking ++ [numeral_value <$> nums]).
Proof.
  intros Hnums Hrest.
  assert (∀ nums', Forall is_numeral nums' →
    parse_loop (S fuel) (("{"%char :: commas nums' ++ ["}"%char]) ++ rest)
      ranking =
    parse_loop fuel rest (ranking ++ [numeral_value <$> nums'])) as Hbraces.
  { intros nums' Hnums'. rewrite <-app_comm_cons, <-app_assoc.
    cbn [parse_loop]. change (isspace "{"%char) with false.
    rewrite bool_decide_eq_false_2 by done. cbn [orb].
    rewrite decide_True by done. simpl app.
    rewrite (scan_group_commas nums' ("}"%char :: rest) [] Hnums') by eauto.
    done. }
  destruct nums as [|num [|num' nums]];
    [by apply (Hbraces [])| |by apply Hbraces].
  apply Forall_cons in Hnums as [Hnum _].
  pose proof (py_int_numeral num Hnum) as Hint.
  destruct Hnum as (Hne & Hlen & Hdec).
  destruct num as [|c num]; [done|]. cbn [render_group].
  pose proof (Forall_inv Hdec) as Hc. simpl in Hc.
  destruct (decimal_char c Hc) as (_ & Hsp & _ & Hopen & Hcomma & _).
  rewrite <-app_comm_cons. cbn [parse_loop].
  rewrite Hsp, bool_decide_eq_false_2 by done. cbn [orb].
  rewrite decide_False by done.
  rewrite app_comm_cons.
  rewrite (scan_number_digits (c :: num) rest []).
  - cbn [fst snd app]. rewrite Hint. done.
  - done.
  - intros c' rest' ->. destruct Hrest as [Hnil|(r & Heq)]; [done|].
    injection Heq as -> _. done.
Qed.

Lemma parse_loop_comma fuel rest ranking :
  parse_loop (S fuel) (","%char :: rest) ranking = parse_loop fuel rest ranking.
Proof. done. Qed.

Lemma parse_loop_tail fuel (groups : list (list (list ascii))) ranking :
  Forall (Forall is_numeral) groups →
  (2 * length groups ≤ fuel)%nat →
  parse_loop fuel
    (concat ((λ x : list ascii, ","%char :: x) <$> (render_group <$> groups))) ranking =
  Parsed (ranking ++ (fmap (M := list) numeral_value <$> groups)).
Proof.
  intros Hgroups. revert fuel ranking.
  induction Hgroups as [|nums groups Hnums Hgroups IH]; intros fuel ranking Hfuel.
  { simpl. rewrite app_nil_r. by destruct fuel. }
  destruct fuel as [|[|fuel]]; [simpl in Hfuel; lia..|].
  rewrite !fmap_cons. cbn [concat]. rewrite <-app_comm_cons.
  rewrite parse_loop_comma.
  rewrite parse_loop_group; [|done|].
  - rewrite IH by (simpl in Hfuel; lia). by rewrite <-app_assoc.
  - destruct groups; [by left|right]. rewrite !fmap_cons. cbn [concat]. eauto.
Qed.

Lemma length_separated (groups : list (list (list ascii))) :
  Forall (Forall is_numeral) groups →
  (2 * length groups
   ≤ length (concat ((λ x : list ascii, ","%char :: x) <$> (render_group <$> groups))))%nat.
Proof.
  induction 1 as [|nums groups Hnums Hgroups IH]; [done|].
  rewrite !fmap_cons. cbn [concat]. rewrite length_app. simpl length.
  pose proof (render_group_nonempty nums Hnums).
  destruct (render_group nums); [done|]. simpl. lia.
Qed.
End ParserFacts.

Section ParserResults.
Import Parsing.
Implicit Types (rest num : list ascii) (ranking : list (list Z)) (c : ascii).

Lemma digit_char c :
  isdigit c = true → isspace c = false ∧ c ≠ ","%char ∧ c ≠ "{"%char.
Proof.
  unfold isdigit, isspace, is_decimal. intros Hc.
  apply orb_true_iff in Hc as [Hc|Hc]; apply bool_decide_eq_true in Hc.
  - split; [apply bool_decide_eq_false; lia|].
    split; intros ->; vm_compute in Hc; destruct Hc as [H1 H2];
      by (apply H1 || apply H2).
  - split; [apply bool_decide_eq_false; lia|].
    split; intros ->; vm_compute in Hc; by destruct Hc as [|[|]].
Qed.

Lemma scan_number_isdigit num rest acc :
  Forall (λ c, isdigit c = true) num →
  (∀ c rest', rest = c :: rest' → isdigit c = false) →
  scan_number (num ++ rest) acc = (acc ++ num, rest).
Proof.
  intros Hdig Hstop. revert acc.
  induction Hdig as [|c num Hc Hdig IH]; intros acc; simpl.
  - rewrite app_nil_r. destruct rest as [|c rest']; [done|].
    simpl. by rewrite (Hstop c rest').
  - by rewrite Hc, IH, <-app_assoc.
Qed.

Lemma parse_loop_stray fuel c rest ranking :
  stray c → parse_loop fuel (c :: rest) ranking = NoFuel.
Proof.
  intros (Hsp & Hcomma & Hopen & Hdig).
  induction fuel as [|fuel IH]; [done|].
  cbn [parse_loop]. rewrite Hsp, bool_decide_eq_false_2 by done. cbn [orb].
  rewrite decide_False by done.
  cbn [scan_number]. rewrite Hdig. cbn [fst snd]. exact IH.
Qed.
End ParserResults.

(** X17.  Round trip: a ranking written in the dataset's notation (tie
    groups separated by commas, a lone numeral bare, any other group as
    comma-separated numerals between braces) is parsed back to the values
    of its numerals, group by group, in order; one pass of the outer loop
    per character is enough. *)
Theorem parse_ranking_render (groups : list (list (list ascii))) :
  Forall (Forall Parsing.is_numeral) groups →
  (∀ fuel, (length (Parsing.render groups) ≤ fuel)%nat →
     Parsing.parse_loop fuel (Parsing.render groups) [] =
     Parsing.Parsed (fmap (M := list) Parsing.numeral_value <$> groups)) ∧
  Parsing.parse_ranking (String.string_of_list_ascii (Parsing.render groups)) =
  Parsing.Parsed (fmap (M := list) Parsing.numeral_value <$> groups).
Proof.
  intros Hgroups.
  assert (∀ fuel, (length (Parsing.render groups) ≤ fuel)%nat →
     Parsing.parse_loop fuel (Parsing.render groups) [] =
     Parsing.Parsed (fmap (M := list) Parsing.numeral_value <$> groups))
    as Hloop.
  { intros fuel Hfuel. unfold Parsing.render in *.
    destruct Hgroups as [|nums groups Hnums Hgroups]; [by destruct fuel|].
    rewrite fmap_cons in Hfuel |- *. cbn [Parsing.commas] in Hfuel |- *.
    rewrite length_app in Hfuel.
    pose proof (length_separated groups Hgroups) as Hlen.
    pose proof (render_group_nonempty nums Hnums) as Hne.
    destruct fuel as [|fuel].
    { destruct (Parsing.render_group nums); [done|simpl in Hfuel; lia]. }
    rewrite parse_loop_group; [|done|].
    - rewrite parse_loop_tail; [done|done|].
      destruct (Parsing.render_group nums); [done|simpl in Hfuel; lia].
    - destruct groups; [by left|right].
      rewrite !fmap_cons. cbn [concat]. eauto. }
  split; [done|]. unfold Parsing.parse_ranking.
  rewrite String.list_ascii_of_string_of_list_ascii. apply Hloop. lia.
Qed.

(** X18.  A tie group whose closing brace is missing at the end of the
    input is read as if it were closed. *)
Theorem parse_ranking_unclosed_group (nums : list (list ascii)) (fuel : nat)
    (ranking : list (list Z)) :
  Forall Parsing.is_numeral nums →
  Parsing.parse_loop (S fuel) ("{"%char :: Parsing.commas nums) ranking =
    Parsing.Parsed (ranking ++ [Parsing.numeral_value <$> nums]) ∧
  Parsing.parse_loop (S fuel) ("{"%char :: Parsing.commas nums ++ ["}"%char])
    ranking =
    Parsing.Parsed (ranking ++ [Parsing.numeral_value <$> nums]).
Proof.
  intros Hnums. split.
  - cbn [Parsing.parse_loop]. change (Parsing.isspace "{"%char) with false.
    rewrite bool_decide_eq_false_2 by done. cbn [orb].
    rewrite decide_True by done.
    rewrite <-(app_nil_r (Parsing.commas nums)).
    rewrite (scan_group_commas nums [] [] Hnums) by (by left).
    by destruct fuel.
  - cbn [Parsing.parse_loop]. change (Parsing.isspace "{"%char) with false.
    rewrite bool_decide_eq_false_2 by done. cbn [orb].
    rewrite decide_True by done.
    rewrite (scan_group_commas nums ["}"%char] [] Hnums) by eauto.
    by destruct fuel.
Qed.

(** X19.  A character that is neither white space, a comma, an opening
    brace nor a digit (a letter, or a closing brace outside a group), met
    by the outer loop after separators only, stops all progress: the loop
    never ends, however many passes it is given. *)
Theorem parse_ranking_stray_diverges (seps : list ascii) (c : ascii)
    (rest : list ascii) (ranking : list (list Z)) (fuel : nat) :
  Forall (λ x, Parsing.isspace x = true ∨ x = ","%char) seps →
  Parsing.stray c →
  Parsing.parse_loop fuel (seps ++ c :: rest) ranking = Parsing.NoFuel.
Proof.
  intros Hseps Hc. revert fuel.
  induction Hseps as [|x seps Hx Hseps IH]; intros fuel.
  { by apply parse_loop_stray. }
  destruct fuel as [|fuel]; [done|].
  rewrite <-app_comm_cons. cbn [Parsing.parse_loop].
  assert (Parsing.isspace x || bool_decide (x = ","%char) = true) as ->.
  { destruct Hx as [->| ->]; [done|]. by rewrite orb_true_r. }
  apply IH.
Qed.

Ltac numerals :=
  repeat first
    [ apply Forall_nil
    | apply Forall_cons; split
    | split; [done|split; [simpl; lia|]] ];
  done.

Lemma parse_ranking_render_witness :
  Forall (Forall Parsing.is_numeral)
    [[String.list_ascii_of_string "10"];
     [String.list_ascii_of_string "2"; String.list_ascii_of_string "03"]] ∧
  Parsing.parse_ranking "10,{2,03}" = Parsing.Parsed [[10]; [2; 3]].
Proof.
  assert (Forall (Forall Parsing.is_numeral)
    [[String.list_ascii_of_string "10"];
     [String.list_ascii_of_string "2"; String.list_ascii_of_string "03"]])
    as Hgroups by numerals.
  split; [exact Hgroups|].
  exact (proj2 (parse_ranking_render _ Hgroups)).
Defined.

Lemma parse_ranking_unclosed_group_witness :
  Forall Parsing.is_numeral
    [String.list_ascii_of_string "4"; String.list_ascii_of_string "5"] ∧
  Parsing.parse_loop 1 (String.list_ascii_of_string "{4,5") [] =
  Parsing.Parsed [[4; 5]].
Proof.
  assert (Forall Parsing.is_numeral
    [String.list_ascii_of_string "4"; String.list_ascii_of_string "5"])
    as Hnums by numerals.
  split; [exact Hnums|].
  exact (proj1 (parse_ranking_unclosed_group _ 0 [] Hnums)).
Defined.

Lemma parse_ranking_stray_diverges_witness :
  (Forall (λ x, Parsing.isspace x = true ∨ x = ","%char) [" "%char; ","%char] ∧
   Parsing.stray "a"%char) ∧
  Parsing.parse_loop 100 (String.list_ascii_of_string " ,a1") [] =
  Parsing.NoFuel.
Proof.
  assert (Forall (λ x, Parsing.isspace x = true ∨ x = ","%char)
            [" "%char; ","%char]) as Hseps.
  { constructor; [by left|]. constructor; [by right|]. constructor. }
  assert (Parsing.stray "a"%char) as Hc by (by repeat split).
  split; [by split|].
  exact (parse_ranking_stray_diverges [" "%char; ","%char] "a"%char
           ["1"%char] [] 100 Hseps Hc).
Defined.

(** X20.  A bare run of [isdigit] characters that contains one which [int]
    does not accept (a superscript digit) makes the parser raise
    [ValueError]. *)
Theorem parse_ranking_bad_digit (num rest : list ascii) (fuel : nat)
    (ranking : list (list Z)) :
  num ≠ [] →
  Forall (λ c, Parsing.isdigit c = true) num →
  Exists (λ c, Parsing.is_decimal c = false) num →
  rest = [] ∨ (∃ c rest', rest = c :: rest' ∧ Parsing.isdigit c = false) →
  Parsing.parse_loop (S fuel) (num ++ rest) ranking = Parsing.ValueError.
Proof.
  intros Hne Hdig Hbad Hrest.
  destruct num as [|c num]; [done|].
  pose proof (Forall_inv Hdig) as Hc. simpl in Hc.
  destruct (digit_char c Hc) as (Hsp & Hcomma & Hopen).
  rewrite <-app_comm_cons. cbn [Parsing.parse_loop].
  rewrite Hsp, bool_decide_eq_false_2 by done. cbn [orb].
  rewrite decide_False by done.
  rewrite app_comm_cons, (scan_number_isdigit (c :: num) rest []).
  - cbn [fst snd app]. unfold Parsing.py_int.
    assert (forallb Parsing.is_decimal (c :: num) = false) as ->; [|done].
    apply not_true_iff_false. intros Hall.
    rewrite forallb_forall in Hall. apply Exists_exists in Hbad as (x & Hx & Hxd).
    apply list_elem_of_In in Hx. rewrite (Hall x Hx) in Hxd. done.
  - done.
  - intros c' rest' ->. destruct Hrest as [Hnil|(c'' & r & Heq & Hd)]; [done|].
    by injection Heq as -> _.
Qed.

Lemma parse_ranking_bad_digit_witness :
  (["1"%char; ascii_of_nat 178] ≠ [] ∧
   Forall (λ c, Parsing.isdigit c = true) ["1"%char; ascii_of_nat 178] ∧
   Exists (λ c, Parsing.is_decimal c = false) ["1"%char; ascii_of_nat 178]) ∧
  Parsing.parse_loop 1 ["1"%char; ascii_of_nat 178] [] = Parsing.ValueError.
Proof.
  assert (["1"%char; ascii_of_nat 178] ≠ []) as H1 by discriminate.
  assert (Forall (λ c, Parsing.isdigit c = true) ["1"%char; ascii_of_nat 178])
    as H2 by (by repeat constructor).
  assert (Exists (λ c, Parsing.is_decimal c = false)
            ["1"%char; ascii_of_nat 178]) as H3.
  { apply Exists_cons_tl, Exists_cons_hd. done. }
  split; [by repeat split|].
  pose proof (parse_ranking_bad_digit ["1"%char; ascii_of_nat 178] [] 0 []
                H1 H2 H3 (or_introl eq_refl)) as Hrun.
  by rewrite app_nil_r in Hrun.
Defined.
